(** * The thebe liquid tag: directive parsing and notebook cell selection

    A shallow embedding of [liquid_tags/thebe.py]:
    - the directive pattern [FORMAT] as a regular-expression term run by a
      backtracking matcher with greedy quantifiers and named groups, and the
      argument handling that follows the match in [thebe];
    - the [SubCell] preprocessor over a store of Python objects, with
      [deepcopy] and list slicing;
    - [custom_highlighter] over the external highlighter it calls;
    - the path resolution and existence test of [thebe]. *)

From Stdlib Require Import ZArith Ascii String List Lia Bool.
From Stdlib Require Import Decimal DecimalString.
From stdpp Require Import gmap strings list.
Import ListNotations.

Local Open Scope Z_scope.
Local Open Scope list_scope.

(** ** Text

    A Python [str] is a [string]; the matcher walks it as a list of
    characters. Characters are bytes, and the classes of the pattern are
    what [re] takes them to be on byte strings without flags (on Python 3
    text, [\s] takes a few more separators than the six below). *)

Abbreviation text := (list ascii).

Definition chars (s : string) : text := list_ascii_of_string s.
Definition str (t : text) : string := string_of_list_ascii t.

(** [\s]: space, tab, line feed, vertical tab, form feed, carriage return. *)
Definition is_space (c : ascii) : bool :=
  let n := nat_of_ascii c in
  (Nat.eqb n 32 || (Nat.leb 9 n && Nat.leb n 13))%bool.

(** [\S] *)
Definition is_nonspace (c : ascii) : bool := negb (is_space c).

(** [[0-9]] *)
Definition is_digit (c : ascii) : bool :=
  let n := nat_of_ascii c in (Nat.leb 48 n && Nat.leb n 57)%bool.

(** [[a-z0-9\+\-]] *)
Definition is_langchar (c : ascii) : bool :=
  let n := nat_of_ascii c in
  ((Nat.leb 97 n && Nat.leb n 122) || is_digit c
   || Nat.eqb n 43 || Nat.eqb n 45)%bool.

Definition newline : ascii := ascii_of_nat 10.

(** ** Regular expressions

    The constructs [FORMAT] is written with. Repetition ([*], [+]) occurs in
    it only on one-character classes; [?] occurs on groups and on a literal. *)

Inductive gname : Type := Gsrc | Gstart | Gend | Glanguage.

Inductive re : Type :=
| Eps
| Bol                                (* ^ *)
| Eol                                (* $ *)
| Lit (c : ascii)
| Cls (p : ascii -> bool)
| Star (p : ascii -> bool)           (* greedy X* *)
| Plus (p : ascii -> bool)           (* greedy X+ *)
| Opt (r : re)                       (* greedy R? *)
| Cat (r1 r2 : re)
| Grp (name : option gname) (r : re).  (* (R) and (?P<name>R) *)

Definition seq (rs : list re) : re := fold_right Cat Eps rs.
Definition lits (s : string) : re := seq (map Lit (chars s)).

(** What the named groups hold during a match. *)
Record caps : Type := Caps {
  c_src : option text;
  c_start : option text;
  c_end : option text;
  c_language : option text
}.

Definition no_caps : caps := Caps None None None None.

Definition set_group (name : option gname) (t : text) (g : caps) : caps :=
  match name with
  | None => g
  | Some Gsrc => Caps (Some t) (c_start g) (c_end g) (c_language g)
  | Some Gstart => Caps (c_src g) (Some t) (c_end g) (c_language g)
  | Some Gend => Caps (c_src g) (c_start g) (Some t) (c_language g)
  | Some Glanguage => Caps (c_src g) (c_start g) (c_end g) (Some t)
  end.

(** The matcher is written with a continuation for the rest of the pattern:
    a quantifier tries its longest alternative first and falls back to the
    shorter ones when the continuation fails, which is the order in which
    [re] explores them. [pos] is the offset of [s] in the subject. *)
Definition cont : Type := text -> nat -> caps -> option caps.

Fixpoint rep_max (p : ascii -> bool) (k : cont) (g : caps)
    (s : text) (pos : nat) : option caps :=
  match s with
  | c :: s' =>
      if p c then
        match rep_max p k g s' (S pos) with
        | Some r => Some r
        | None => k s pos g
        end
      else k s pos g
  | [] => k s pos g
  end.

Fixpoint m (r : re) (s : text) (pos : nat) (g : caps) (k : cont)
    : option caps :=
  match r with
  | Eps => k s pos g
  | Bol => if Nat.eqb pos 0 then k s pos g else None
  | Eol =>
      match s with
      | [] => k s pos g
      | [c] => if Ascii.eqb c newline then k s pos g else None
      | _ => None
      end
  | Lit c =>
      match s with
      | x :: s' => if Ascii.eqb x c then k s' (S pos) g else None
      | [] => None
      end
  | Cls p =>
      match s with
      | x :: s' => if p x then k s' (S pos) g else None
      | [] => None
      end
  | Star p => rep_max p k g s pos
  | Plus p =>
      match s with
      | x :: s' => if p x then rep_max p k g s' (S pos) else None
      | [] => None
      end
  | Opt r1 =>
      match m r1 s pos g k with
      | Some r => Some r
      | None => k s pos g
      end
  | Cat r1 r2 => m r1 s pos g (fun s' pos' g' => m r2 s' pos' g' k)
  | Grp name r1 =>
      m r1 s pos g
        (fun s' pos' g' => k s' pos' (set_group name (firstn (pos' - pos) s) g'))
  end.

Definition accept : cont := fun _ _ g => Some g.

(** [pattern.search]: the first offset, from the left, at which the pattern
    matches. *)
Fixpoint search_from (r : re) (s : text) (pos : nat) : option caps :=
  match m r s pos no_caps accept with
  | Some g => Some g
  | None =>
      match s with
      | [] => None
      | _ :: s' => search_from r s' (S pos)
      end
  end.

(** [match.groupdict()] *)
Record groupdict : Type := GroupDict {
  gd_src : option string;
  gd_start : option string;
  gd_end : option string;
  gd_language : option string
}.

Definition to_groupdict (g : caps) : groupdict :=
  GroupDict (option_map str (c_src g)) (option_map str (c_start g))
            (option_map str (c_end g)) (option_map str (c_language g)).

Definition search (r : re) (markup : string) : option groupdict :=
  option_map to_groupdict (search_from r (chars markup) 0).

(** ** The directive pattern *)

Definition SYNTAX : string :=
  "{% thebe /path/to/notebook.ipynb [ cells[start:end] ] [ language[language] ] %}".

(** [FORMAT], piece by piece in the order of the source pattern:
    [^], an optional group [(\s+)], the group [src] of [\S+], an optional
    [(\s+)], the optional cells clause, an optional [(\s+)], the optional
    language clause, an optional [(\s+)], and [$]. The cells clause is the
    group [(cells\[)], the group [start] of [-?[0-9]*], a colon, the group
    [end] of [-?[0-9]*], and the group [(\])]; the language clause is the
    group [(language\[)], the group [language] of [-?[a-z0-9\+\-]*], and the
    group [(\])]. *)
Definition ws_opt : re := Opt (Grp None (Plus is_space)).

Definition cells_clause : re :=
  Grp None (seq [
    Grp None (lits "cells[");
    Grp (Some Gstart) (Cat (Opt (Lit "-")) (Star is_digit));
    Lit ":";
    Grp (Some Gend) (Cat (Opt (Lit "-")) (Star is_digit));
    Grp None (Lit "]") ]).

Definition language_clause : re :=
  Grp None (seq [
    Grp None (lits "language[");
    Grp (Some Glanguage) (Cat (Opt (Lit "-")) (Star is_langchar));
    Grp None (Lit "]") ]).

Definition FORMAT : re :=
  seq [ Bol; ws_opt; Grp (Some Gsrc) (Plus is_nonspace); ws_opt;
        Opt cells_clause; ws_opt; Opt language_clause; ws_opt; Eol ].

(** ** Errors and [int] *)

(** [ValueError] is what [thebe] and [int] raise; [Exception] stands for
    whatever else a collaborator (the highlighter, the exporter) may raise. *)
Inductive exn : Type :=
| ValueError (msg : string)
| Exception (kind msg : string).

Inductive result (A : Type) : Type :=
| Raise (e : exn)
| Return (a : A).
Arguments Raise {A} e.
Arguments Return {A} a.

Fixpoint digits_value (t : text) (acc : Z) : option Z :=
  match t with
  | [] => Some acc
  | c :: t' =>
      if is_digit c
      then digits_value t' (10 * acc + Z.of_nat (nat_of_ascii c - 48))
      else None
  end.

(** [int(s)] on the text a [-?[0-9]*] group can hold: an optional sign and at
    least one decimal digit; anything else is a [ValueError]. *)
Definition int (s : string) : result Z :=
  let bad := Raise (ValueError
    ("invalid literal for int() with base 10: '" +:+ s +:+ "'")) in
  match chars s with
  | [] => bad
  | c :: t =>
      if Ascii.eqb c "-" then
        match t with
        | [] => bad
        | _ => match digits_value t 0 with
               | Some v => Return (- v)
               | None => bad
               end
        end
      else match digits_value (c :: t) 0 with
           | Some v => Return v
           | None => bad
           end
  end.

(** Truth value of an optional string: [None] and [''] are false. *)
Definition truthy (o : option string) : bool :=
  match o with
  | Some s => negb (String.eqb s "")
  | None => false
  end.

(** ** [thebe], up to the arguments it hands on (lines 103-122) *)

Record Directive : Type := MkDirective {
  d_src : string;
  d_start : Z;
  d_end : option Z;
  d_language : option string
}.

Definition malformed : exn :=
  ValueError ("Error processing input, expected syntax: " +:+ SYNTAX).

(** [if start: start = int(start)] / [else: start = 0] *)
Definition start_arg (start : option string) : result Z :=
  if truthy start then int (default "" start) else Return 0.

(** [if end: end = int(end)] / [else: end = None] *)
Definition end_arg (end_ : option string) : result (option Z) :=
  if truthy end_ then
    match int (default "" end_) with
    | Raise e => Raise e
    | Return v => Return (Some v)
    end
  else Return None.

Definition thebe_args (markup : string) : result Directive :=
  match search FORMAT markup with
  | Some argdict =>
      match gd_src argdict with
      | Some src =>
          match start_arg (gd_start argdict) with
          | Raise e => Raise e
          | Return start =>
              match end_arg (gd_end argdict) with
              | Raise e => Raise e
              | Return end_ =>
                  Return (MkDirective src start end_ (gd_language argdict))
              end
          end
      | None => Raise malformed  (* not reached, see [search_src] *)
      end
  | None => Raise malformed
  end.

(** ** Sequence slicing

    [l[start:stop]] on a list, as CPython computes it for step 1: [None]
    stands for the respective end, a negative index counts from the end of
    the sequence, and what still falls outside is clamped. *)

Definition adjust_index (len i : Z) : Z :=
  if i <? 0 then
    (if i + len <? 0 then 0 else i + len)
  else if len <=? i then len else i.

Definition slice_start (len : Z) (start : option Z) : Z :=
  match start with
  | None => 0
  | Some i => adjust_index len i
  end.

Definition slice_stop (len : Z) (stop : option Z) : Z :=
  match stop with
  | None => len
  | Some i => adjust_index len i
  end.

Definition list_slice {A : Type} (l : list A) (start stop : option Z) : list A :=
  let len := Z.of_nat (length l) in
  let lo := slice_start len start in
  let hi := slice_stop len stop in
  if lo <? hi
  then firstn (Z.to_nat (hi - lo)) (skipn (Z.to_nat lo) l)
  else [].

(** The spec's measure of a selection, written from its words:
    [len(range( *slice(start, end).indices(N)))]. [slice.indices] follows the
    library reference (bounds [0] and [N] for a positive step), [range]'s
    length is the number of steps from [start] that stay below [stop]. *)
Definition slice_indices (start stop : option Z) (N : Z) : Z * Z * Z :=
  let bound (i : Z) := if i <? 0 then Z.max (i + N) 0 else Z.min i N in
  (match start with None => 0 | Some i => bound i end,
   match stop with None => N | Some i => bound i end,
   1).

Definition range_len (r : Z * Z * Z) : Z :=
  let '(start, stop, step) := r in
  if 0 <? step then
    (if start <? stop then (stop - start - 1) / step + 1 else 0)
  else if step <? 0 then
    (if stop <? start then (start - stop - 1) / (- step) + 1 else 0)
  else 0.

(** ** The object store

    Notebook objects are mutable and shared by reference, so they live in a
    store. Three layers are objects of their own, the ones [SubCell] works
    on: the notebook node, the list held by its [cells] attribute, and the
    cell dictionaries in that list. What a dictionary holds below that
    (strings, numbers, nested output data) is carried by value. *)

#[local] Unset Elimination Schemes.
Inductive json : Type :=
| JNull
| JBool (b : bool)
| JInt (z : Z)
| JStr (s : string)
| JList (l : list json)
| JDict (l : list (string * json)).
#[local] Set Elimination Schemes.

Abbreviation loc := positive.

Inductive obj : Type :=
| ONotebook (cells : loc) (rest : gmap string json)
| OList (items : list loc)
| ODict (d : gmap string json).

Abbreviation heap := (gmap loc obj).

Definition alloc (o : obj) (h : heap) : loc * heap :=
  let l := fresh (dom h) in (l, <[l := o]> h).

(** [deepcopy] of a list of cell dictionaries. The memo maps an object
    already copied to its copy, so a dictionary that occurs twice in the
    list is copied once. *)
Fixpoint deepcopy_items (items : list loc) (memo : gmap loc loc) (h : heap)
    : option (list loc * gmap loc loc * heap) :=
  match items with
  | [] => Some ([], memo, h)
  | l :: items' =>
      match memo !! l with
      | Some l' =>
          match deepcopy_items items' memo h with
          | Some (ls, memo', h') => Some (l' :: ls, memo', h')
          | None => None
          end
      | None =>
          match h !! l with
          | Some (ODict d) =>
              let '(l', h1) := alloc (ODict d) h in
              match deepcopy_items items' (<[l := l']> memo) h1 with
              | Some (ls, memo', h') => Some (l' :: ls, memo', h')
              | None => None
              end
          | _ => None
          end
      end
  end.

(** [deepcopy(nb)] for a notebook node. The result is [None] when [nb] is
    not a notebook node whose [cells] is a list of dictionaries. *)
Definition deepcopy (nb : loc) (h : heap) : option (loc * heap) :=
  match h !! nb with
  | Some (ONotebook cl rest) =>
      match h !! cl with
      | Some (OList items) =>
          match deepcopy_items items ∅ h with
          | Some (items', _, h1) =>
              let '(cl', h2) := alloc (OList items') h1 in
              Some (alloc (ONotebook cl' rest) h2)
          | None => None
          end
      | _ => None
      end
  | _ => None
  end.

(** ** [SubCell]

    The traits [start] and [end] are [SliceIndex]es: an integer or [None]. *)
Record SubCell : Type := MkSubCell {
  start : option Z;
  end_ : option Z
}.

(** The declared defaults: [SliceIndex(0, ...)] and [SliceIndex(None, ...)]. *)
Definition SubCell_default : SubCell := MkSubCell (Some 0) None.

(** [SubCell.preprocess]. The module refuses to load unless
    [IPYTHON_VERSION >= 3], so of the two branches only the [else] one runs:
    [nbc.cells = nbc.cells[self.start:self.end]]. The slice is a new list
    object; the attribute of the copy is rebound to it. *)
Definition preprocess (self : SubCell) (nb resources : loc) (h : heap)
    : option (loc * loc * heap) :=
  match deepcopy nb h with
  | Some (nbc, h1) =>
      match h1 !! nbc with
      | Some (ONotebook cl rest) =>
          match h1 !! cl with
          | Some (OList items) =>
              let '(cl', h2) :=
                alloc (OList (list_slice items (start self) (end_ self))) h1 in
              Some (nbc, resources, <[nbc := ONotebook cl' rest]> h2)
          | _ => None
          end
      | _ => None
      end
  | None => None
  end.

(** Reading a notebook out of the store: the cell dictionaries in order, and
    everything the node holds besides [cells]. *)
Definition read_cell (h : heap) (l : loc) : option (gmap string json) :=
  match h !! l with
  | Some (ODict d) => Some d
  | _ => None
  end.

Definition cell_locs (h : heap) (nb : loc) : option (list loc) :=
  match h !! nb with
  | Some (ONotebook cl _) =>
      match h !! cl with
      | Some (OList items) => Some items
      | _ => None
      end
  | _ => None
  end.

Definition nb_cells (h : heap) (nb : loc) : option (list (gmap string json)) :=
  match cell_locs h nb with
  | Some items => mapM (read_cell h) items
  | None => None
  end.

Definition nb_rest (h : heap) (nb : loc) : option (gmap string json) :=
  match h !! nb with
  | Some (ONotebook _ rest) => Some rest
  | _ => None
  end.

(** The objects a notebook is made of: the node, its list, its cells. *)
Definition nb_locs (h : heap) (nb : loc) : list loc :=
  match h !! nb with
  | Some (ONotebook cl _) =>
      nb :: cl :: match h !! cl with
                  | Some (OList items) => items
                  | _ => []
                  end
  | _ => [nb]
  end.

(** ** [custom_highlighter] *)

(** [HtmlFormatter(cssclass=...)] *)
Record HtmlFormatter : Type := MkHtmlFormatter { cssclass : string }.

Section Highlighter.

(** [IPython.nbconvert.filters.highlight._pygments_highlight], taken as
    given: source, formatter and language to HTML, or an exception. *)
Variable _pygments_highlight :
  string -> HtmlFormatter -> string -> result string.

(** [language] is [None] or a string; a caller that leaves it out stands for
    [Some "ipython"]. [metadata] is accepted and not used. *)
Definition custom_highlighter (source : string) (language : option string)
    (metadata : option json) : result string :=
  let formatter := MkHtmlFormatter "highlight-ipynb" in
  let language' := if truthy language then default "" language else "ipython" in
  let output := _pygments_highlight source formatter language' in
  output.

End Highlighter.

(** ** [thebe] *)

(** [posixpath.join] *)
Definition starts_with_slash (s : string) : bool :=
  match s with
  | String c _ => Ascii.eqb c "/"
  | EmptyString => false
  end.

Fixpoint ends_with_slash (s : string) : bool :=
  match s with
  | EmptyString => false
  | String c EmptyString => Ascii.eqb c "/"
  | String _ s' => ends_with_slash s'
  end.

Definition os_path_join (a : string) (p : list string) : string :=
  fold_left
    (fun path b =>
       if starts_with_slash b then b
       else if (String.eqb path "" || ends_with_slash path)%bool then path +:+ b
       else path +:+ "/" +:+ b)
    p a.

(** The [Config] handed to the exporter. *)
Record Config : Type := MkConfig {
  CSSHTMLHeaderTransformer_enabled : bool;
  CSSHTMLHeaderTransformer_highlight_class : string;
  SubCell_enabled : bool;
  SubCell_start : Z;
  SubCell_end : option Z
}.

(** [HTMLExporter(config=..., filters=..., template_file=...,
    template_path=..., preprocessors=[SubCell])] *)
Record HTMLExporter : Type := MkHTMLExporter {
  config : Config;
  highlight2html : string -> option json -> result string;
  template_file : string;
  template_path : string
}.

(** What a call of [thebe] can change or leave behind: the notebook files
    handed to the exporter so far, and the blocks stored in [htmlStash]. *)
Record world : Type := MkWorld {
  rendered : list string;
  stash : list (string * bool)
}.

Definition M (A : Type) : Type := world -> result A * world.

Definition raise {A : Type} (e : exn) : M A := fun w => (Raise e, w).
Definition bind {A B : Type} (c : M A) (f : A -> M B) : M B :=
  fun w =>
    match c w with
    | (Return a, w') => f a w'
    | (Raise e, w') => (Raise e, w')
    end.
Definition lift {A : Type} (r : result A) : M A := fun w => (r, w).

Notation "'let*' x ':=' c 'in' k" := (bind c (fun x => k))
  (at level 10, x name, c at level 100, k at level 200).

(** [Config({'CSSHTMLHeaderTransformer': {'enabled': True, 'highlight_class':
    '.highlight-ipynb'}, 'SubCell': {'enabled': True, 'start': start, 'end':
    end}})] *)
Definition Config_of (d : Directive) : Config :=
  MkConfig true ".highlight-ipynb" true (d_start d) (d_end d).

Section Thebe.

(** The collaborators of [thebe]: the site configuration, the file system
    test, the highlighter, the exporter run on a notebook file (reading
    the file, [reads] and [from_notebook_node], giving the body), and the
    placeholder [htmlStash.store] returns for the n-th block. *)
Variable getConfig : string -> string.
Variable os_path_exists : string -> bool.
Variable _pygments_highlight :
  string -> HtmlFormatter -> string -> result string.
Variable from_notebook_file : HTMLExporter -> string -> result string.
Variable placeholder : nat -> string.

Definition export (exporter : HTMLExporter) (nb_path : string) : M string :=
  fun w =>
    (from_notebook_file exporter nb_path,
     MkWorld (rendered w ++ [nb_path]) (stash w)).

Definition htmlStash_store (html : string) (safe : bool) : M string :=
  fun w =>
    (Return (placeholder (length (stash w))),
     MkWorld (rendered w) (stash w ++ [(html, safe)])).

Definition thebe (markup : string) : M string :=
  let* d := lift (thebe_args markup) in
  let language_applied_highlighter :=
    fun source metadata =>
      custom_highlighter _pygments_highlight source (d_language d) metadata in
  let nb_dir := getConfig "NOTEBOOK_DIR" in
  let nb_path := os_path_join "content" [nb_dir; d_src d] in
  if negb (os_path_exists nb_path) then
    raise (ValueError ("File " +:+ nb_path +:+ " could not be found"))
  else
    let c := Config_of d in
    let template_file := "liquid_tags/thebehtml_3.tplx" in
    let exporter :=
      MkHTMLExporter c language_applied_highlighter template_file
                     (getConfig "PLUGIN_PATHS") in
    let* body := export exporter nb_path in
    htmlStash_store body true.

End Thebe.

(** The [SubCell] instance the exporter configures from [Config]. *)
Definition SubCell_of (c : Config) : SubCell :=
  MkSubCell (Some (SubCell_start c)) (SubCell_end c).


(** ** [SliceIndex]

    [validate] lets [None] through and hands every other value to the
    [validate] of [Integer], its parent class in [IPython.utils.traitlets],
    which is taken as given. *)

Section SliceIndex.

Variable Integer_validate : json -> result json.


End SliceIndex.

(** ** The version test

    [IPYTHON_VERSION] is the major version of IPython. Loading the module
    raises unless [IPYTHON_VERSION >= 3]; further down the code still
    branches on it: where the cells are ([nb.worksheets] or [nb.cells]),
    the keyword [SubCell] is passed under, and the reader of the file. *)








(** * Vocabulary of the statements *)

(** ** Text of a known shape *)

(** [stops p r]: the text [r] does not go on with a character of [p]. *)
Definition stops (p : ascii -> bool) (r : text) : Prop :=
  match r with
  | [] => True
  | c :: _ => p c = false
  end.

(** A text of [p]s with an optional sign in front: what [-?X*] is for. *)
Definition signed (p : ascii -> bool) (s : text) : Prop :=
  match s with
  | c :: ds =>
      if Ascii.eqb c "-"
      then Forall (fun c => p c = true) ds
      else Forall (fun c => p c = true) s
  | [] => True
  end.

Definition blank (w : text) : Prop := Forall (fun c => is_space c = true) w.
Definition gap (w : text) : Prop := w <> [] /\ blank w.
Definition word (w : text) : Prop :=
  w <> [] /\ Forall (fun c => is_nonspace c = true) w.

Definition cells_text (s e : text) : text :=
  chars "cells[" ++ s ++ [":"%char] ++ e ++ ["]"%char].

Definition language_text (l : text) : text :=
  chars "language[" ++ l ++ ["]"%char].

Definition cells_part (sep : text) (cells : option (text * text)) : text :=
  match cells with
  | Some (s, e) => sep ++ cells_text s e
  | None => []
  end.

Definition language_part (sep : text) (language : option text) : text :=
  match language with
  | Some l => sep ++ language_text l
  | None => []
  end.

(** ** What a pattern matches

    [den r pos w s']: the pattern [r], at offset [pos] of the subject, can
    match the text [w] with [s'] left after it. Groups and greediness play
    no part in it. *)

Fixpoint den (r : re) (pos : nat) (w s' : text) : Prop :=
  match r with
  | Eps => w = []
  | Bol => w = [] /\ pos = 0%nat
  | Eol => w = [] /\ (s' = [] \/ s' = [newline])
  | Lit c => w = [c]
  | Cls p => exists c, w = [c] /\ p c = true
  | Star p => Forall (fun c => p c = true) w
  | Plus p => w <> [] /\ Forall (fun c => p c = true) w
  | Opt r1 => w = [] \/ den r1 pos w s'
  | Cat r1 r2 =>
      exists w1 w2, w = w1 ++ w2 /\ den r1 pos w1 (w2 ++ s')
                    /\ den r2 (pos + length w1)%nat w2 s'
  | Grp _ r1 => den r1 pos w s'
  end.

(** The two clauses as texts: absent, or the keyword and brackets around
    what the groups hold. *)
Definition cells_shape (C : text) : Prop :=
  C = [] \/ exists a b, C = cells_text a b /\ signed is_digit a /\ signed is_digit b.

Definition language_shape (L : text) : Prop :=
  L = [] \/ exists l, L = language_text l /\ Forall (fun c => is_langchar c = true) l.

(** [ends_not p x]: the text [x] does not end with a character of [p]. *)
Definition ends_not (p : ascii -> bool) (x : text) : Prop := stops p (rev x).

(** ** Directives as the spec writes them

    [<path> [cells[<start>:<end>]] [language[<lang>]]], separated by white
    space. A number inside the brackets is read as the Standard Library
    reads decimal notation; no digits at all stand for the default. *)

Definition start_value (s : string) : option Z :=
  if String.eqb s "" then Some 0 else Z.of_int <$> NilZero.int_of_string s.

Definition end_value (s : string) : option (option Z) :=
  if String.eqb s "" then Some None
  else (fun d => Some (Z.of_int d)) <$> NilZero.int_of_string s.

Definition cells_clause_str (s e : string) : string :=
  "cells[" +:+ s +:+ ":" +:+ e +:+ "]".

Definition language_clause_str (l : string) : string :=
  "language[" +:+ l +:+ "]".

Definition directive_str (lead path sep1 : string)
    (cells : option (string * string)) (sep2 : string)
    (language : option string) (trail : string) : string :=
  lead +:+ path
  +:+ match cells with
      | Some (s, e) => sep1 +:+ cells_clause_str s e
      | None => ""
      end
  +:+ match language with
      | Some l => sep2 +:+ language_clause_str l
      | None => ""
      end
  +:+ trail.

(** ** Stores

    The memo of [deepcopy] against the store [h0] it started from and the
    current store [h]: a copy is an object that [h0] did not have, and holds
    what the original holds. *)
Definition memo_ok (h0 h : heap) (memo : gmap loc loc) : Prop :=
  forall l l', memo !! l = Some l' ->
    h0 !! l' = None /\
    exists d, read_cell h0 l = Some d /\ read_cell h l' = Some d.

(** A small notebook in a store: three cells [a], [b], [c] at the locations
    3, 4 and 5, their list at 2, the node at 1, and an empty [resources]
    dictionary at 6. *)
Definition cell_of (source : string) : gmap string json :=
  {[ "cell_type" := JStr "code"; "source" := JStr source ]}.

Definition demo_store : heap :=
  <[1%positive := ONotebook 2%positive {[ "nbformat" := JInt 4 ]}]>
  (<[2%positive := OList [3; 4; 5]%positive]>
  (<[3%positive := ODict (cell_of "a")]>
  (<[4%positive := ODict (cell_of "b")]>
  (<[5%positive := ODict (cell_of "c")]>
  (<[6%positive := ODict ∅]> ∅))))).

(** What the spec asks of a selection [sel] out of the cells [cs]: the
    count of [range] over [slice.indices], the cells at the indices that
    range runs through, and nothing exactly when the resolved start is not
    below the resolved end. *)
Definition selects {A : Type} (self : SubCell) (cs sel : list A) : Prop :=
  let N := Z.of_nat (length cs) in
  let '(lo, hi, step) := slice_indices (start self) (end_ self) N in
  Z.of_nat (length sel) = range_len (lo, hi, step)
  /\ (forall i : nat, (i < length sel)%nat ->
        sel !! i = cs !! (Z.to_nat lo + i)%nat)
  /\ (sel = [] <-> hi <= lo).

(** ** Highlighting

    The lexer the spec asks for: the language tag, or the notebook's own
    lexer when the tag is unset or empty. *)
Definition lexer_of (language : option string) : string :=
  match language with
  | None => "ipython"
  | Some l => if String.eqb l "" then "ipython" else l
  end.

(** A highlighter that wraps the source in a block of the formatter's class,
    and one that knows no lexer at all. *)
Definition wrapping_highlighter (source : string) (f : HtmlFormatter)
    (language : string) : result string :=
  Return ("<div class=" +:+ cssclass f +:+ "><pre>" +:+ source +:+ "</pre></div>").

Definition failing_highlighter (source : string) (f : HtmlFormatter)
    (language : string) : result string :=
  Raise (Exception "ClassNotFound" ("no lexer for alias " +:+ language +:+ " found")).

(** * Vocabulary of the further properties *)

(** [always k s' pos']: the rest of the pattern matches at [s'] whatever the
    groups hold. *)
Definition always (k : cont) (s' : text) (pos' : nat) : Prop :=
  forall g', exists res, k s' pos' g' = Some res.

(** The texts the grammar of [FORMAT] describes. *)
Definition directive_shape (t : text) : Prop :=
  exists ws0 src ws1 C ws2 L ws3,
    t = ws0 ++ src ++ ws1 ++ C ++ ws2 ++ L ++ ws3
    /\ blank ws0 /\ word src /\ blank ws1 /\ cells_shape C /\ blank ws2
    /\ language_shape L /\ blank ws3.

(** ** Groups *)

Definition get_group (n : gname) (g : caps) : option text :=
  match n with
  | Gsrc => c_src g
  | Gstart => c_start g
  | Gend => c_end g
  | Glanguage => c_language g
  end.

(** Every group that is set holds a text of [P]. *)
Definition caps_sat (P : gname -> text -> Prop) (g : caps) : Prop :=
  forall n t, get_group n g = Some t -> P n t.

(** Every named group of [r] can only match texts of [P]. *)
Fixpoint groups_ok (P : gname -> text -> Prop) (r : re) : Prop :=
  match r with
  | Grp (Some n) r1 =>
      (forall pos w s', den r1 pos w s' -> P n w) /\ groups_ok P r1
  | Grp None r1 => groups_ok P r1
  | Opt r1 => groups_ok P r1
  | Cat r1 r2 => groups_ok P r1 /\ groups_ok P r2
  | _ => True
  end.

(** What the four groups of [FORMAT] can hold. *)
Definition group_text (n : gname) (t : text) : Prop :=
  match n with
  | Gsrc => word t
  | Gstart => signed is_digit t
  | Gend => signed is_digit t
  | Glanguage => Forall (fun c => is_langchar c = true) t
  end.

(** What [int] raises on a sign without digits. *)
Definition lone_sign : exn :=
  ValueError "invalid literal for int() with base 10: '-'".



(** * Proofs *)

(** ** The matcher on text of a known shape

    A run of class characters followed by something outside the class is
    taken whole by a greedy quantifier, provided the rest of the pattern
    then matches. *)

Lemma rep_max_greedy p k g w r pos res :
  Forall (fun c => p c = true) w ->
  stops p r ->
  k r (pos + length w)%nat g = Some res ->
  rep_max p k g (w ++ r) pos = Some res.
Proof.
  intros Hw Hr. revert pos. induction Hw as [|c w Hc _ IH]; intros pos Hk.
  - simpl in *. rewrite Nat.add_0_r in Hk.
    destruct r as [|c r]; simpl; [exact Hk|].
    simpl in Hr. rewrite Hr. exact Hk.
  - simpl. rewrite Hc. rewrite IH; [reflexivity|].
    simpl in Hk. rewrite <- Nat.add_succ_comm in Hk. exact Hk.
Qed.

Lemma firstn_exact (w r : text) (n : nat) :
  n = length w -> firstn n (w ++ r) = w.
Proof.
  intros ->. rewrite firstn_app, Nat.sub_diag, firstn_all. simpl. apply app_nil_r.
Qed.

Lemma m_cat r1 r2 s pos g k :
  m (Cat r1 r2) s pos g k = m r1 s pos g (fun s' pos' g' => m r2 s' pos' g' k).
Proof. reflexivity. Qed.

Lemma m_grp name r1 s pos g k :
  m (Grp name r1) s pos g k
  = m r1 s pos g
      (fun s' pos' g' => k s' pos' (set_group name (firstn (pos' - pos) s) g')).
Proof. reflexivity. Qed.

Lemma m_bol s g k : m Bol s 0 g k = k s 0%nat g.
Proof. reflexivity. Qed.

Lemma m_plus_greedy p k g w r pos res :
  w <> [] ->
  Forall (fun c => p c = true) w ->
  stops p r ->
  k r (pos + length w)%nat g = Some res ->
  m (Plus p) (w ++ r) pos g k = Some res.
Proof.
  intros Hne Hw Hr Hk. destruct w as [|c w]; [congruence|].
  inversion Hw as [|? ? Hc Hw']; subst. simpl. rewrite Hc.
  apply rep_max_greedy; auto.
  simpl in Hk. rewrite <- Nat.add_succ_comm in Hk. exact Hk.
Qed.

(** [(\s+)?] takes the whole run of white space in front of it, which may be
    empty. *)
Lemma m_ws_opt k g w r pos res :
  Forall (fun c => is_space c = true) w ->
  stops is_space r ->
  k r (pos + length w)%nat g = Some res ->
  m ws_opt (w ++ r) pos g k = Some res.
Proof.
  intros Hw Hr Hk. destruct w as [|c w].
  - simpl in *. rewrite Nat.add_0_r in Hk.
    destruct r as [|c r]; [exact Hk|]. simpl in Hr. rewrite Hr. exact Hk.
  - change (m ws_opt ((c :: w) ++ r) pos g k) with
      (match m (Plus is_space) ((c :: w) ++ r) pos g
               (fun s' pos' g' => k s' pos' g') with
       | Some x => Some x
       | None => k ((c :: w) ++ r) pos g
       end).
    rewrite (m_plus_greedy is_space _ g (c :: w) r pos res); auto.
Qed.

(** The group [src] takes the whole first word. *)
Lemma m_src k g w r pos res :
  w <> [] ->
  Forall (fun c => is_nonspace c = true) w ->
  stops is_nonspace r ->
  k r (pos + length w)%nat (set_group (Some Gsrc) w g) = Some res ->
  m (Grp (Some Gsrc) (Plus is_nonspace)) (w ++ r) pos g k = Some res.
Proof.
  intros Hne Hw Hr Hk. cbn [m].
  apply m_plus_greedy; auto.
  rewrite firstn_exact by lia. exact Hk.
Qed.

Lemma m_signed p k g s r pos res :
  signed p s ->
  stops (fun c => (p c || Ascii.eqb c "-")%bool) r ->
  k r (pos + length s)%nat g = Some res ->
  m (Cat (Opt (Lit "-")) (Star p)) (s ++ r) pos g k = Some res.
Proof.
  intros Hs Hr Hk.
  assert (Hr' : stops p r).
  { destruct r as [|c r]; simpl in *; [exact I|].
    apply orb_false_iff in Hr. tauto. }
  destruct s as [|c ds].
  - simpl in *. rewrite Nat.add_0_r in Hk.
    destruct r as [|c r]; simpl; [exact Hk|].
    simpl in Hr, Hr'. apply orb_false_iff in Hr as [Hp Hd].
    rewrite Hd. simpl. rewrite Hp. exact Hk.
  - simpl in Hs. cbn [m app]. destruct (Ascii.eqb c "-") eqn:Hc.
    + rewrite (rep_max_greedy p k g ds r (S pos) res); auto.
      simpl in Hk. rewrite <- Nat.add_succ_comm in Hk. exact Hk.
    + change (c :: ds ++ r) with ((c :: ds) ++ r).
      apply rep_max_greedy; auto.
Qed.

Ltac norm_text := repeat (rewrite <- app_assoc; cbn [app]).
Ltac step := cbn [app m Ascii.eqb Bool.eqb set_group].
Ltac next := rewrite m_cat; cbn beta.
Ltac at_pos H :=
  match goal with
  | |- ?k ?r ?n ?g = Some ?res =>
      match type of H with
      | ?k ?r ?n' ?g' = Some ?res =>
          replace n with n';
          [ | unfold cells_text, language_text;
              repeat rewrite length_app; simpl; lia ]
      end
  end.

Lemma m_cells_clause k g s e r pos res :
  signed is_digit s -> signed is_digit e ->
  k r (pos + length (cells_text s e))%nat
    (set_group (Some Gend) e (set_group (Some Gstart) s g)) = Some res ->
  m (Opt cells_clause) (cells_text s e ++ r) pos g k = Some res.
Proof.
  intros Hs He Hk.
  enough (m cells_clause (cells_text s e ++ r) pos g k = Some res) as H
    by (cbn [m]; rewrite H; reflexivity).
  unfold cells_clause, cells_text, lits, seq.
  cbn [m fold_right map chars list_ascii_of_string app Ascii.eqb Bool.eqb].
  norm_text.
  apply m_signed; [exact Hs | reflexivity |]. step.
  apply m_signed; [exact He | reflexivity |]. step.
  rewrite !firstn_exact by lia.
  at_pos Hk. exact Hk.
Qed.

Lemma signed_langchar l :
  Forall (fun c => is_langchar c = true) l -> signed is_langchar l.
Proof.
  intros Hl. destruct l as [|c l]; simpl; [exact I|].
  destruct (Ascii.eqb c "-"); [|exact Hl]. inversion Hl; assumption.
Qed.

Lemma m_language_clause k g l r pos res :
  Forall (fun c => is_langchar c = true) l ->
  k r (pos + length (language_text l))%nat
    (set_group (Some Glanguage) l g) = Some res ->
  m (Opt language_clause) (language_text l ++ r) pos g k = Some res.
Proof.
  intros Hl Hk.
  enough (m language_clause (language_text l ++ r) pos g k = Some res) as H
    by (cbn [m]; rewrite H; reflexivity).
  unfold language_clause, language_text, lits, seq.
  cbn [m fold_right map chars list_ascii_of_string app Ascii.eqb Bool.eqb].
  norm_text.
  apply m_signed; [apply signed_langchar; exact Hl | reflexivity |].
  step.
  rewrite !firstn_exact by lia.
  at_pos Hk. exact Hk.
Qed.

(** A clause that is not there is passed over. *)
Lemma m_cells_skip k g r pos :
  stops (fun c => Ascii.eqb c "c") r ->
  m (Opt cells_clause) r pos g k = k r pos g.
Proof.
  intros Hr. destruct r as [|c r]; [reflexivity|].
  simpl in Hr. unfold cells_clause, lits, seq.
  cbn [m fold_right map chars list_ascii_of_string]. rewrite Hr. reflexivity.
Qed.

Lemma m_language_skip k g r pos :
  stops (fun c => Ascii.eqb c "l") r ->
  m (Opt language_clause) r pos g k = k r pos g.
Proof.
  intros Hr. destruct r as [|c r]; [reflexivity|].
  simpl in Hr. unfold language_clause, lits, seq.
  cbn [m fold_right map chars list_ascii_of_string]. rewrite Hr. reflexivity.
Qed.

Lemma search_from_here r s pos g :
  m r s pos no_caps accept = Some g -> search_from r s pos = Some g.
Proof. intros H. destruct s; cbn [search_from]; rewrite H; reflexivity. Qed.

Lemma blank_stops_nonspace w r :
  w <> [] -> blank w -> stops is_nonspace (w ++ r).
Proof.
  intros Hne Hw. destruct w as [|c w]; [congruence|].
  inversion Hw as [|? ? Hc _]; subst. simpl. unfold is_nonspace.
  rewrite Hc. reflexivity.
Qed.

Lemma blank_stops_nonspace' w : blank w -> stops is_nonspace w.
Proof.
  intros Hw. destruct w as [|c w]; [exact I|].
  inversion Hw as [|? ? Hc _]; subst. simpl. unfold is_nonspace.
  rewrite Hc. reflexivity.
Qed.

Lemma word_stops_space w r : word w -> stops is_space (w ++ r).
Proof.
  intros [Hne Hw]. destruct w as [|c w]; [congruence|].
  inversion Hw as [|? ? Hc _]; subst. simpl. unfold is_nonspace in Hc.
  destruct (is_space c); [discriminate|reflexivity].
Qed.

(** The pattern on a directive in the order path, cells clause, language
    clause, each clause present or not, with any white space around and
    between: the groups hold the path and the texts inside the brackets. *)
Lemma FORMAT_match lead path sep1 sep2 trail cells language :
  blank lead -> word path -> gap sep1 -> gap sep2 -> blank trail ->
  match cells with
  | Some (s, e) => signed is_digit s /\ signed is_digit e
  | None => True
  end ->
  match language with
  | Some l => Forall (fun c => is_langchar c = true) l
  | None => True
  end ->
  search_from FORMAT
    (lead ++ path ++ cells_part sep1 cells ++ language_part sep2 language ++ trail) 0
  = Some (Caps (Some path) (fst <$> cells) (snd <$> cells) language).
Proof.
  intros Hlead Hpath [Hne1 Hsep1] [Hne2 Hsep2] Htrail Hcells Hlang.
  apply search_from_here.
  unfold FORMAT, seq. cbn [fold_right].
  next. rewrite m_bol. next.
  apply m_ws_opt; [exact Hlead | apply word_stops_space; exact Hpath |].
  destruct Hpath as [Hpne Hpath]. next.
  destruct cells as [[s e]|], language as [l|]; cbn [cells_part language_part app].
  - norm_text. destruct Hcells as [Hs He].
    apply m_src; [exact Hpne | exact Hpath | apply blank_stops_nonspace; assumption |].
    next. apply m_ws_opt; [exact Hsep1 | reflexivity |].
    next. apply m_cells_clause; [exact Hs | exact He |].
    next. apply m_ws_opt; [exact Hsep2 | reflexivity |].
    next. apply m_language_clause; [exact Hlang |].
    next. rewrite <- (app_nil_r trail).
    apply m_ws_opt; [exact Htrail | exact I |].
    reflexivity.
  - norm_text. destruct Hcells as [Hs He].
    apply m_src; [exact Hpne | exact Hpath | apply blank_stops_nonspace; assumption |].
    next. apply m_ws_opt; [exact Hsep1 | reflexivity |].
    next. apply m_cells_clause; [exact Hs | exact He |].
    next. rewrite <- (app_nil_r trail).
    apply m_ws_opt; [exact Htrail | exact I |].
    next. rewrite m_language_skip by exact I.
    next. apply (m_ws_opt _ _ [] []); [constructor | exact I |].
    reflexivity.
  - norm_text.
    apply m_src; [exact Hpne | exact Hpath | apply blank_stops_nonspace; assumption |].
    next. apply m_ws_opt; [exact Hsep2 | reflexivity |].
    next. rewrite m_cells_skip by reflexivity.
    next. apply (m_ws_opt _ _ []); [constructor | reflexivity |].
    next. apply m_language_clause; [exact Hlang |].
    next. rewrite <- (app_nil_r trail).
    apply m_ws_opt; [exact Htrail | exact I |].
    reflexivity.
  - apply m_src; [exact Hpne | exact Hpath | apply blank_stops_nonspace'; assumption |].
    next. rewrite <- (app_nil_r trail).
    apply m_ws_opt; [exact Htrail | exact I |].
    next. rewrite m_cells_skip by exact I.
    next. apply (m_ws_opt _ _ [] []); [constructor | exact I |].
    next. rewrite m_language_skip by exact I.
    next. apply (m_ws_opt _ _ [] []); [constructor | exact I |].
    reflexivity.
Qed.

(** ** Reading the arguments

    [int] agrees with the Standard Library's reading of decimal notation. *)

Lemma chars_app (a b : string) : chars (a +:+ b) = chars a ++ chars b.
Proof. induction a as [|c a IH]; simpl; [reflexivity|]. f_equal. exact IH. Qed.

Lemma str_chars (s : string) : str (chars s) = s.
Proof. apply string_of_list_ascii_of_string. Qed.

Lemma digits_value_step c t acc :
  digits_value (c :: t) acc =
  if is_digit c
  then digits_value t (10 * acc + Z.of_nat (nat_of_ascii c - 48))
  else None.
Proof. reflexivity. Qed.

Lemma uint_digits d :
  Forall (fun c => is_digit c = true) (chars (NilEmpty.string_of_uint d)).
Proof. induction d; simpl; constructor; auto. Qed.

Lemma digits_value_acc d acc :
  digits_value (chars (NilEmpty.string_of_uint d)) (Z.pos acc)
  = Some (Z.pos (Pos.of_uint_acc d acc)).
Proof.
  revert acc. induction d; intros acc;
    cbn [NilEmpty.string_of_uint chars list_ascii_of_string Pos.of_uint_acc];
    [reflexivity|..];
    rewrite digits_value_step;
    match goal with
    | |- (if is_digit ?c then _ else _) = _ =>
        change (is_digit c) with true; cbv iota
    end;
    rewrite <- IHd; f_equal; vm_compute (Z.of_nat _); lia.
Qed.

Lemma digits_value_uint d :
  digits_value (chars (NilEmpty.string_of_uint d)) 0
  = Some (Z.of_uint d).
Proof.
  unfold Z.of_uint.
  induction d;
    cbn [NilEmpty.string_of_uint chars list_ascii_of_string Pos.of_uint];
    [reflexivity|..];
    rewrite digits_value_step;
    match goal with
    | |- (if is_digit ?c then _ else _) = _ =>
        change (is_digit c) with true; cbv iota
    end;
    [exact IHd|..]; apply digits_value_acc.
Qed.

Lemma int_decimal s d :
  NilZero.int_of_string s = Some d ->
  int s = Return (Z.of_int d) /\ signed is_digit (chars s) /\ s <> "".
Proof.
  destruct s as [|a s']; [discriminate|].
  unfold NilZero.int_of_string, int, signed.
  cbn [chars list_ascii_of_string].
  destruct (Ascii.eqb a "-") eqn:Ha.
  - destruct s' as [|b s'']; [discriminate|].
    cbn [NilZero.uint_of_string].
    destruct (NilEmpty.uint_of_string (String b s'')) as [u|] eqn:Hu; [|discriminate].
    intros [= <-]. apply NilEmpty.sus in Hu.
    pose proof (digits_value_uint u) as Hv. pose proof (uint_digits u) as Hd.
    rewrite Hu in Hv, Hd. cbn [chars list_ascii_of_string] in *.
    rewrite Hv. repeat split; [exact Hd | discriminate].
  - cbn [NilZero.uint_of_string].
    destruct (NilEmpty.uint_of_string (String a s')) as [u|] eqn:Hu; [|discriminate].
    intros [= <-]. apply NilEmpty.sus in Hu.
    pose proof (digits_value_uint u) as Hv. pose proof (uint_digits u) as Hd.
    rewrite Hu in Hv, Hd. cbn [chars list_ascii_of_string] in *.
    rewrite Hv. repeat split; [exact Hd | discriminate].
Qed.

Lemma start_value_int s a :
  start_value s = Some a ->
  signed is_digit (chars s) /\ start_arg (Some s) = Return a.
Proof.
  unfold start_value, start_arg, truthy. cbn [default from_option id]. destruct (String.eqb_spec s "") as [->|Hne].
  - intros [= <-]. split; [exact I | reflexivity].
  - destruct (NilZero.int_of_string s) as [d|] eqn:Hd; [|discriminate].
    intros [= <-]. apply int_decimal in Hd as (Hi & Hs & _). auto.
Qed.

Lemma end_value_int s b :
  end_value s = Some b ->
  signed is_digit (chars s) /\ end_arg (Some s) = Return b.
Proof.
  unfold end_value, end_arg, truthy. cbn [default from_option id]. destruct (String.eqb_spec s "") as [->|Hne].
  - intros [= <-]. split; [exact I | reflexivity].
  - destruct (NilZero.int_of_string s) as [d|] eqn:Hd; [|discriminate].
    intros [= <-]. apply int_decimal in Hd as (Hi & Hs & _).
    rewrite Hi. auto.
Qed.

Lemma directive_chars lead path sep1 cells sep2 language trail :
  chars (directive_str lead path sep1 cells sep2 language trail)
  = chars lead ++ chars path
    ++ cells_part (chars sep1)
         (prod_map chars chars <$> cells)
    ++ language_part (chars sep2) (chars <$> language) ++ chars trail.
Proof.
  unfold directive_str, cells_clause_str, language_clause_str,
    cells_part, language_part, cells_text, language_text.
  destruct cells as [[s e]|], language as [l|]; cbn [fmap option_fmap option_map prod_map fst snd];
    repeat rewrite chars_app; repeat rewrite <- app_assoc; reflexivity.
Qed.

(** ** Directives of the grammar *)

(** The groups of a directive of the grammar. *)
Lemma search_directive lead path sep1 cells sep2 language trail :
  blank (chars lead) -> word (chars path) ->
  gap (chars sep1) -> gap (chars sep2) -> blank (chars trail) ->
  match cells with
  | Some (s, e) => signed is_digit (chars s) /\ signed is_digit (chars e)
  | None => True
  end ->
  match language with
  | Some l => Forall (fun c => is_langchar c = true) (chars l)
  | None => True
  end ->
  search FORMAT (directive_str lead path sep1 cells sep2 language trail)
  = Some (GroupDict (Some path) (fst <$> cells) (snd <$> cells) language).
Proof.
  intros Hlead Hpath Hsep1 Hsep2 Htrail Hcells Hlang.
  unfold search. rewrite directive_chars.
  rewrite (FORMAT_match _ _ _ _ _ _ _ Hlead Hpath Hsep1 Hsep2 Htrail).
  - unfold to_groupdict.
    destruct cells as [[s e]|], language as [l|]; cbn;
      rewrite ?str_chars; reflexivity.
  - destruct cells as [[s e]|]; cbn; [exact Hcells | exact I].
  - destruct language; cbn; auto.
Qed.

(** From the groups to the arguments. *)
Lemma thebe_args_of_groups markup src s e l a b :
  search FORMAT markup = Some (GroupDict (Some src) s e l) ->
  start_arg s = Return a -> end_arg e = Return b ->
  thebe_args markup = Return (MkDirective src a b l).
Proof.
  intros Hm Hs He. unfold thebe_args. rewrite Hm.
  cbn [gd_src gd_start gd_end gd_language]. rewrite Hs, He. reflexivity.
Qed.

Ltac shape :=
  lazymatch goal with
  | |- blank _ => repeat constructor
  | |- word _ => split; [discriminate | repeat constructor]
  | |- gap _ => split; [discriminate | repeat constructor]
  | |- Forall _ _ => repeat constructor
  | |- _ /\ _ => split; reflexivity
  | |- True => exact I
  end.

Lemma chars_inj (a b : string) : chars a = chars b -> a = b.
Proof.
  intros H. rewrite <- (str_chars a), <- (str_chars b), H. reflexivity.
Qed.

(** A directive the pattern does not match. *)
Lemma parse_no_match markup :
  search FORMAT markup = None -> thebe_args markup = Raise malformed.
Proof. intros H. unfold thebe_args. rewrite H. reflexivity. Qed.

(** ** What a successful match tells about the subject *)

Lemma rep_max_sound p k g s pos res :
  rep_max p k g s pos = Some res ->
  exists w s', s = w ++ s' /\ Forall (fun c => p c = true) w
               /\ k s' (pos + length w)%nat g = Some res.
Proof.
  revert pos. induction s as [|c s IH]; intros pos H; simpl in H.
  - exists [], []. rewrite Nat.add_0_r. auto.
  - destruct (p c) eqn:Hc.
    + destruct (rep_max p k g s (S pos)) as [r|] eqn:Hr.
      * injection H as ->. apply IH in Hr as (w & s' & -> & Hw & Hk).
        exists (c :: w), s'. simpl. rewrite <- Nat.add_succ_comm. auto.
      * exists [], (c :: s). rewrite Nat.add_0_r. auto.
    + exists [], (c :: s). rewrite Nat.add_0_r. auto.
Qed.

Lemma m_sound r : forall s pos g k res,
  m r s pos g k = Some res ->
  exists w s' g', s = w ++ s' /\ den r pos w s'
                  /\ k s' (pos + length w)%nat g' = Some res.
Proof.
  induction r as [| | |c|p|p|p|r1 IH1|r1 IH1 r2 IH2|name r1 IH1];
    intros s pos g k res H; cbn [m] in H.
  - exists [], s, g. rewrite Nat.add_0_r. simpl. auto.
  - destruct (Nat.eqb_spec pos 0); [|discriminate].
    exists [], s, g. rewrite Nat.add_0_r. simpl. auto.
  - destruct s as [|c [|c' s]]; [| |discriminate].
    + exists [], [], g. rewrite Nat.add_0_r. simpl. auto.
    + destruct (Ascii.eqb_spec c newline) as [->|]; [|discriminate].
      exists [], [newline], g. rewrite Nat.add_0_r. simpl. auto.
  - destruct s as [|x s]; [discriminate|].
    destruct (Ascii.eqb_spec x c) as [->|]; [|discriminate].
    exists [c], s, g. rewrite Nat.add_1_r. simpl. auto.
  - destruct s as [|x s]; [discriminate|].
    destruct (p x) eqn:Hx; [|discriminate].
    exists [x], s, g. rewrite Nat.add_1_r. simpl. eauto.
  - apply rep_max_sound in H as (w & s' & -> & Hw & Hk).
    exists w, s', g. simpl. auto.
  - destruct s as [|x s]; [discriminate|].
    destruct (p x) eqn:Hx; [|discriminate].
    apply rep_max_sound in H as (w & s' & -> & Hw & Hk).
    exists (x :: w), s', g. simpl. rewrite <- Nat.add_succ_comm.
    repeat split; auto; discriminate.
  - destruct (m r1 s pos g k) as [x|] eqn:Hm.
    + injection H as ->. apply IH1 in Hm as (w & s' & g' & -> & Hd & Hk).
      exists w, s', g'. simpl. auto.
    + exists [], s, g. rewrite Nat.add_0_r. simpl. auto.
  - apply IH1 in H as (w1 & s1 & g1 & -> & Hd1 & H).
    apply IH2 in H as (w2 & s2 & g2 & -> & Hd2 & H).
    exists (w1 ++ w2), s2, g2. rewrite length_app, Nat.add_assoc, <- app_assoc.
    repeat split; auto. simpl. eauto.
  - apply IH1 in H as (w & s' & g' & -> & Hd & Hk).
    exists w, s'. eexists. simpl. eauto.
Qed.

Lemma den_ws_opt pos w s' : den ws_opt pos w s' -> blank w.
Proof.
  unfold ws_opt. cbn [den]. intros [->|[_ H]]; [constructor | exact H].
Qed.

Lemma den_signed p pos w s' :
  den (Cat (Opt (Lit "-")) (Star p)) pos w s' -> signed p w.
Proof.
  cbn [den]. intros (w1 & w2 & -> & [->| ->] & Hw2).
  - simpl. destruct w2 as [|c ds]; simpl; [exact I|].
    destruct (Ascii.eqb c "-"); [|exact Hw2]. inversion Hw2; assumption.
  - simpl. exact Hw2.
Qed.

Lemma den_lits str pos w s' : den (lits str) pos w s' -> w = chars str.
Proof.
  unfold lits, seq. revert pos w.
  induction (chars str) as [|c t IH]; intros pos w; cbn [map fold_right den].
  - auto.
  - intros (w1 & w2 & -> & -> & H). apply IH in H as ->. reflexivity.
Qed.

Lemma den_cells pos w s' : den (Opt cells_clause) pos w s' -> cells_shape w.
Proof.
  cbn [den]. intros [->|H]; [left; reflexivity|right].
  unfold cells_clause, seq in H. cbn [den fold_right] in H.
  destruct H as (w1 & r1 & -> & H1 & a & r2 & -> & Ha & w3 & r3 & -> & -> &
                 b & r4 & -> & Hb & w5 & r5 & -> & -> & ->).
  apply den_lits in H1 as ->.
  pose proof (den_signed is_digit 0 a [] Ha).
  pose proof (den_signed is_digit 0 b [] Hb).
  exists a, b. unfold cells_text. rewrite app_nil_r. auto.
Qed.

Lemma signed_langchar_all l :
  signed is_langchar l -> Forall (fun c => is_langchar c = true) l.
Proof.
  destruct l as [|c l]; simpl; [constructor|].
  destruct (Ascii.eqb_spec c "-") as [->|]; [|auto].
  intros H. constructor; [reflexivity | exact H].
Qed.

Lemma den_language pos w s' :
  den (Opt language_clause) pos w s' -> language_shape w.
Proof.
  cbn [den]. intros [->|H]; [left; reflexivity|right].
  unfold language_clause, seq in H. cbn [den fold_right] in H.
  destruct H as (w1 & r1 & -> & H1 & l & r2 & -> & Hl & w3 & r3 & -> & -> & ->).
  apply den_lits in H1 as ->.
  pose proof (signed_langchar_all _ (den_signed is_langchar 0 l [] Hl)).
  exists l. unfold language_text. rewrite app_nil_r. auto.
Qed.

Lemma search_from_FORMAT_later s n : search_from FORMAT s (S n) = None.
Proof.
  revert n. induction s as [|c s IH]; intros n; cbn [search_from];
    unfold FORMAT, seq; cbn [fold_right]; rewrite m_cat; cbn [m Nat.eqb].
  - reflexivity.
  - apply IH.
Qed.

Lemma search_FORMAT_anchored s res :
  search_from FORMAT s 0 = Some res -> m FORMAT s 0 no_caps accept = Some res.
Proof.
  destruct s as [|c s]; cbn [search_from];
    destruct (m FORMAT _ 0 no_caps accept); try discriminate; auto.
  rewrite search_from_FORMAT_later. discriminate.
Qed.

(** What the pattern matches, read off its structure. *)
Lemma FORMAT_sound s res :
  search_from FORMAT s 0 = Some res ->
  exists ws0 src ws1 C ws2 L ws3 tl,
    s = ws0 ++ src ++ ws1 ++ C ++ ws2 ++ L ++ ws3 ++ tl
    /\ blank ws0 /\ word src /\ blank ws1 /\ cells_shape C /\ blank ws2
    /\ language_shape L /\ blank ws3 /\ (tl = [] \/ tl = [newline]).
Proof.
  intros H. apply search_FORMAT_anchored, m_sound in H.
  destruct H as (w & tl & _ & -> & Hd & _).
  unfold FORMAT, seq in Hd. cbn [fold_right] in Hd.
  cbn [den] in Hd.
  destruct Hd as (w0 & r0 & -> & [-> _] & ws0 & r1 & -> & H0 & src & r2 & -> & Hsrc &
                  ws1 & r3 & -> & H1 & C & r4 & -> & HC & ws2 & r5 & -> & H2 &
                  L & r6 & -> & HL & ws3 & r7 & -> & H3 & w8 & r8 & -> &
                  [-> Htl] & ->).
  exists ws0, src, ws1, C, ws2, L, ws3, tl.
  apply den_ws_opt in H0, H1, H2, H3.
  apply (den_cells 0 C []) in HC. apply (den_language 0 L []) in HL.
  cbn [app] in *. rewrite !app_nil_r. rewrite <- !app_assoc.
  repeat split; auto; tauto.
Qed.

Lemma span_unique (p : ascii -> bool) a b r r' :
  Forall (fun c => p c = true) a -> Forall (fun c => p c = true) b ->
  stops p r -> stops p r' ->
  a ++ r = b ++ r' -> a = b /\ r = r'.
Proof.
  intros Ha. revert b. induction Ha as [|c a Hc _ IH]; intros b Hb Hr Hr' E.
  - destruct b as [|d b]; [auto|]. simpl in E. subst r.
    inversion Hb; subst. simpl in Hr. congruence.
  - destruct b as [|d b].
    + simpl in E. subst r'. simpl in Hr'. congruence.
    + inversion Hb; subst. simpl in E. injection E as <- E.
      destruct (IH b) as [-> ->]; auto.
Qed.

Lemma signed_nonspace p s :
  (forall c, p c = true -> is_nonspace c = true) ->
  signed p s -> Forall (fun c => is_nonspace c = true) s.
Proof.
  intros Hp. destruct s as [|c ds]; simpl; [constructor|].
  destruct (Ascii.eqb_spec c "-") as [->|_]; intros H.
  - constructor; [reflexivity|]. eapply Forall_impl; eauto.
  - eapply Forall_impl; eauto.
Qed.

Lemma digit_nonspace c : is_digit c = true -> is_nonspace c = true.
Proof.
  destruct c as [[|] [|] [|] [|] [|] [|] [|] [|]]; vm_compute; congruence.
Qed.

Lemma langchar_nonspace c : is_langchar c = true -> is_nonspace c = true.
Proof.
  destruct c as [[|] [|] [|] [|] [|] [|] [|] [|]]; vm_compute; congruence.
Qed.

Lemma digit_langchar c : is_digit c = true -> is_langchar c = true.
Proof.
  destruct c as [[|] [|] [|] [|] [|] [|] [|] [|]]; vm_compute; congruence.
Qed.

Lemma cells_text_nonspace s e :
  signed is_digit s -> signed is_digit e ->
  Forall (fun c => is_nonspace c = true) (cells_text s e).
Proof.
  intros Hs He. unfold cells_text.
  apply (signed_nonspace _ _ digit_nonspace) in Hs, He.
  repeat (apply Forall_app; split); auto; repeat constructor.
Qed.

Lemma language_text_nonspace l :
  Forall (fun c => is_langchar c = true) l ->
  Forall (fun c => is_nonspace c = true) (language_text l).
Proof.
  intros Hl. unfold language_text.
  repeat (apply Forall_app; split); auto; repeat constructor.
  eapply Forall_impl; eauto using langchar_nonspace.
Qed.

Lemma span_unique_end (p : ascii -> bool) a b r r' :
  Forall (fun c => p c = true) a -> Forall (fun c => p c = true) b ->
  ends_not p r -> ends_not p r' ->
  r ++ a = r' ++ b -> a = b /\ r = r'.
Proof.
  intros Ha Hb Hr Hr' E. apply (f_equal (@rev ascii)) in E.
  rewrite !rev_app_distr in E.
  apply span_unique with (p := p) in E as [E1 E2]; auto using Forall_rev.
  apply (f_equal (@rev ascii)) in E1, E2. rewrite !rev_involutive in E1, E2.
  auto.
Qed.

Lemma ends_not_app p x y : y <> [] -> ends_not p y -> ends_not p (x ++ y).
Proof.
  unfold ends_not. intros Hy H. rewrite rev_app_distr.
  destruct (rev y) as [|c t] eqn:E.
  - apply (f_equal (@rev ascii)) in E. rewrite rev_involutive in E. contradiction.
  - exact H.
Qed.

Lemma ends_not_cons p c y : y <> [] -> ends_not p y -> ends_not p (c :: y).
Proof. apply (ends_not_app p [c]). Qed.

Lemma ends_not_blank w : blank w -> ends_not is_nonspace w.
Proof.
  intros Hw. unfold ends_not. apply Forall_rev in Hw.
  destruct (rev w) as [|c t]; [exact I|]. inversion Hw as [|? ? Hc _]; subst.
  simpl. unfold is_nonspace. rewrite Hc. reflexivity.
Qed.

Lemma ends_not_word w : word w -> ends_not is_space w.
Proof.
  intros [Hne Hw]. unfold ends_not. apply Forall_rev in Hw.
  destruct (rev w) as [|c t]; [exact I|]. inversion Hw as [|? ? Hc _]; subst.
  simpl. unfold is_nonspace in Hc. destruct (is_space c); [discriminate|reflexivity].
Qed.

Lemma word_not_blank w r : word w -> blank (w ++ r) -> False.
Proof.
  intros [Hne Hw] Hb. destruct w as [|c w]; [congruence|].
  inversion Hw as [|? ? Hc _]; inversion Hb as [|? ? Hs _]; subst.
  unfold is_nonspace in Hc. rewrite Hs in Hc. discriminate.
Qed.

Lemma blank_app a b : blank a -> blank b -> blank (a ++ b).
Proof. intros Ha Hb. apply Forall_app; auto. Qed.

Lemma blank_tail tl : tl = [] \/ tl = [newline] -> blank tl.
Proof. intros [->| ->]; repeat constructor. Qed.

Lemma app_not_nil_r (x y : text) : y <> [] -> x ++ y <> [].
Proof. destruct x; [auto | discriminate]. Qed.

Ltac nonnil := repeat apply app_not_nil_r; discriminate.
Ltac ends :=
  repeat lazymatch goal with
  | |- ends_not _ [_] => vm_compute; reflexivity
  | |- ends_not _ (chars _) => vm_compute; reflexivity
  | |- ends_not _ (_ ++ _) => apply ends_not_app; [nonnil|]
  | |- ends_not _ (_ :: _) => apply ends_not_cons; [nonnil|]
  end.

(** With the language clause in front of the cells clause nothing matches. *)
Lemma FORMAT_reversed path l s e :
  word path -> Forall (fun c => is_langchar c = true) l ->
  signed is_digit s -> signed is_digit e ->
  search_from FORMAT
    (path ++ " "%char :: language_text l ++ " "%char :: cells_text s e) 0 = None.
Proof.
  intros Hpath Hl Hs He.
  destruct (search_from FORMAT _ 0) as [res|] eqn:Hm; [exfalso|reflexivity].
  apply FORMAT_sound in Hm.
  destruct Hm as (ws0 & src & ws1 & C & ws2 & L & ws3 & tl & E &
                  H0 & Hsrc & H1 & HC & H2 & HL & H3 & Htl).
  apply blank_tail in Htl.
  pose proof (cells_text_nonspace s e Hs He) as Hcn.
  pose proof (language_text_nonspace l Hl) as Hln.
  set (P := path ++ " "%char :: language_text l ++ [" "%char]).
  assert (EP : path ++ " "%char :: language_text l ++ " "%char :: cells_text s e
               = P ++ cells_text s e).
  { unfold P. rewrite <- !app_assoc. simpl. rewrite <- !app_assoc. reflexivity. }
  rewrite EP in E. clear EP.
  assert (HP : ends_not is_nonspace P) by (unfold P; ends).
  assert (HPb : ~ blank P).
  { unfold P. intros Hb. exact (word_not_blank _ _ Hpath Hb). }
  destruct HL as [->|(x & -> & Hx)].
  - destruct HC as [->|(a & b & -> & Ha & Hb)].
    + (* neither clause: the path would be the whole text *)
      simpl in E.
      assert (HB : blank (ws1 ++ ws2 ++ ws3 ++ tl)) by auto using blank_app.
      replace (ws0 ++ src ++ ws1 ++ ws2 ++ ws3 ++ tl)
        with ((ws0 ++ src) ++ (ws1 ++ ws2 ++ ws3 ++ tl)) in E
        by (rewrite <- !app_assoc; reflexivity).
      rewrite <- (app_nil_r (P ++ _)) in E. symmetry in E.
      apply span_unique_end with (p := is_space) in E as [_ E];
        [ | exact HB | constructor
          | apply ends_not_app; [apply Hsrc | apply ends_not_word; exact Hsrc]
          | unfold cells_text; ends ].
      apply span_unique_end with (p := is_nonspace) in E as [_ E];
        [ | apply Hsrc | exact Hcn | apply ends_not_blank; exact H0 | exact HP ].
      rewrite E in H0. contradiction.
    + (* the cells clause alone: it would be the last word *)
      rewrite app_nil_l in E.
      assert (HB : blank (ws2 ++ ws3 ++ tl)) by auto using blank_app.
      pose proof (cells_text_nonspace a b Ha Hb) as Habn.
      assert (E1 : (ws0 ++ src ++ ws1 ++ cells_text a b) ++ (ws2 ++ ws3 ++ tl)
                   = (P ++ cells_text s e) ++ []).
      { rewrite app_nil_r, E, <- !app_assoc. reflexivity. }
      apply span_unique_end with (p := is_space) in E1 as [_ E1];
        [ | exact HB | constructor
          | unfold cells_text; ends
          | unfold cells_text; ends ].
      clear E HB. destruct ws1 as [|w ws1].
      * simpl in E1. rewrite app_assoc in E1. rewrite <- app_assoc in E1.
        apply span_unique_end with (p := is_nonspace) in E1 as [_ E1];
          [ | apply Forall_app; split; [apply Hsrc | exact Habn] | exact Hcn
            | apply ends_not_blank; exact H0 | exact HP ].
        rewrite E1 in H0. contradiction.
      * assert (E2 : (ws0 ++ src ++ w :: ws1) ++ cells_text a b
                     = P ++ cells_text s e).
        { rewrite <- E1, <- !app_assoc. reflexivity. }
        apply span_unique_end with (p := is_nonspace) in E2 as [_ E2];
          [ | exact Habn | exact Hcn
            | rewrite app_assoc; apply ends_not_app;
              [discriminate | apply ends_not_blank; exact H1]
            | exact HP ].
        assert (E3 : (ws0 ++ src) ++ (w :: ws1)
                     = (path ++ " "%char :: language_text l) ++ [" "%char]).
        { rewrite <- !app_assoc. exact E2. }
        apply span_unique_end with (p := is_space) in E3 as [_ E3];
          [ | exact H1 | repeat constructor
            | apply ends_not_app; [apply Hsrc | apply ends_not_word; exact Hsrc]
            | unfold language_text; ends ].
        assert (E4 : ws0 ++ src = (path ++ [" "%char]) ++ language_text l).
        { rewrite <- !app_assoc. exact E3. }
        apply span_unique_end with (p := is_nonspace) in E4 as [_ E4];
          [ | apply Hsrc | exact Hln | apply ends_not_blank; exact H0 | ends ].
        rewrite E4 in H0. exact (word_not_blank _ _ Hpath H0).
  - (* a language clause: it would be the last word *)
    assert (HB : blank (ws3 ++ tl)) by auto using blank_app.
    set (R := ws0 ++ src ++ ws1 ++ C ++ ws2) in *.
    assert (E1 : (R ++ language_text x) ++ (ws3 ++ tl)
                 = (P ++ cells_text s e) ++ []).
    { rewrite app_nil_r, E. unfold R. rewrite <- !app_assoc. reflexivity. }
    apply span_unique_end with (p := is_space) in E1 as [_ E1];
      [ | exact HB | constructor
        | unfold language_text; ends
        | unfold cells_text; ends ].
    assert (E2 : ((R ++ chars "language[") ++ x) ++ ["]"%char]
                 = ((P ++ chars "cells[" ++ s ++ [":"%char]) ++ e) ++ ["]"%char]).
    { unfold language_text, cells_text in E1.
      rewrite <- !app_assoc. rewrite <- ?app_assoc in E1. exact E1. }
    apply app_inj_tail in E2 as [E2 _].
    apply span_unique_end with (p := is_langchar) in E2 as [_ E2];
      [ | exact Hx
        | apply signed_langchar_all; destruct e as [|c e]; [exact I|];
          simpl in He |- *; destruct (Ascii.eqb c "-");
          (eapply Forall_impl; [exact He | exact digit_langchar])
        | ends | ends ].
    assert (E3 : (R ++ chars "language") ++ ["["%char]
                 = (P ++ chars "cells[" ++ s) ++ [":"%char]).
    { rewrite <- !app_assoc. rewrite <- ?app_assoc in E2. exact E2. }
    apply app_inj_tail in E3 as [_ E3]. discriminate.
Qed.

(** ** The path group takes part in every match *)

Lemma set_group_keeps_src name t g :
  is_Some (c_src g) -> is_Some (c_src (set_group name t g)).
Proof. destruct name as [[]|]; simpl; eauto. Qed.

Lemma rep_max_continues p k g s pos res :
  rep_max p k g s pos = Some res ->
  exists s' pos', k s' pos' g = Some res.
Proof.
  intros H. apply rep_max_sound in H as (w & s' & _ & _ & H). eauto.
Qed.

(** A group once set stays set through the rest of the match. *)
Lemma m_keeps_src r : forall s pos g k res,
  m r s pos g k = Some res ->
  exists s' pos' g',
    k s' pos' g' = Some res /\ (is_Some (c_src g) -> is_Some (c_src g')).
Proof.
  induction r as [| | |c|p|p|p|r1 IH1|r1 IH1 r2 IH2|name r1 IH1];
    intros s pos g k res H; cbn [m] in H.
  - eauto.
  - destruct (Nat.eqb pos 0); [eauto | discriminate].
  - destruct s as [|c [|c' s]]; [eauto | | discriminate].
    destruct (Ascii.eqb c newline); [eauto | discriminate].
  - destruct s as [|x s]; [discriminate|].
    destruct (Ascii.eqb x c); [eauto | discriminate].
  - destruct s as [|x s]; [discriminate|].
    destruct (p x); [eauto | discriminate].
  - apply rep_max_continues in H as (s' & pos' & H). eauto.
  - destruct s as [|x s]; [discriminate|].
    destruct (p x); [|discriminate].
    apply rep_max_continues in H as (s' & pos' & H). eauto.
  - destruct (m r1 s pos g k) as [x|] eqn:Hm; [|eauto].
    injection H as ->. eapply IH1; eauto.
  - apply IH1 in H as (s1 & pos1 & g1 & H & K1).
    apply IH2 in H as (s2 & pos2 & g2 & H & K2).
    exists s2, pos2, g2. split; [exact H | tauto].
  - apply IH1 in H as (s1 & pos1 & g1 & H & K1).
    eexists _, _, _. split; [exact H|].
    intros Hg. apply set_group_keeps_src. tauto.
Qed.

Lemma FORMAT_src s res :
  m FORMAT s 0 no_caps accept = Some res -> is_Some (c_src res).
Proof.
  unfold FORMAT, seq. cbn [fold_right]. intros H.
  rewrite m_cat in H. apply m_keeps_src in H as (s1 & p1 & g1 & H & _).
  rewrite m_cat in H. apply m_keeps_src in H as (s2 & p2 & g2 & H & _).
  rewrite m_cat, m_grp in H.
  apply m_keeps_src in H as (s3 & p3 & g3 & H & _).
  apply m_keeps_src in H as (s4 & p4 & g4 & H & K).
  unfold accept in H. injection H as <-. apply K. simpl. eauto.
Qed.

(** [argdict['src']] is never [None]. *)
Lemma search_src markup argdict :
  search FORMAT markup = Some argdict -> is_Some (gd_src argdict).
Proof.
  unfold search. destruct (search_from FORMAT (chars markup) 0) as [g|] eqn:H;
    [|discriminate].
  intros [= <-]. apply search_FORMAT_anchored, FORMAT_src in H as [t Ht].
  simpl. rewrite Ht. simpl. eauto.
Qed.

Lemma int_not_malformed s : int s <> Raise malformed.
Proof.
  unfold int, malformed, SYNTAX.
  repeat case_match; try discriminate; intros [= H]; cbn in H; discriminate.
Qed.

(** The syntax error is raised for no other reason than a failed match:
    what [int] raises on a range text is a [ValueError] of its own. *)
Lemma thebe_args_malformed_only markup :
  thebe_args markup = Raise malformed -> search FORMAT markup = None.
Proof.
  unfold thebe_args. destruct (search FORMAT markup) as [argdict|] eqn:Hm;
    [|reflexivity].
  destruct (search_src _ _ Hm) as [src ->]. intros H. exfalso.
  unfold start_arg, end_arg in H.
  destruct (truthy (gd_start argdict)).
  - destruct (int (default "" (gd_start argdict))) as [e|v] eqn:Hi.
    + apply (int_not_malformed (default "" (gd_start argdict))). congruence.
    + destruct (truthy (gd_end argdict)); [|discriminate].
      destruct (int (default "" (gd_end argdict))) as [e|v'] eqn:Hj;
        [|discriminate].
      apply (int_not_malformed (default "" (gd_end argdict))). congruence.
  - destruct (truthy (gd_end argdict)); [|discriminate].
    destruct (int (default "" (gd_end argdict))) as [e|v'] eqn:Hj;
      [|discriminate].
    apply (int_not_malformed (default "" (gd_end argdict))). congruence.
Qed.

(** A lone sign between the brackets is matched by the pattern and then
    refused by [int]. *)
Example thebe_args_lone_sign :
  thebe_args "demo.ipynb cells[-:]"
  = Raise (ValueError "invalid literal for int() with base 10: '-'").
Proof. vm_compute. reflexivity. Qed.

(** ** The directive parser *)

(** C1: for every directive string of the grammar, in the order path, cells
    clause, language clause, with each clause present or not and any white
    space around and between, [thebe] extracts the path as written, the
    numbers the range texts denote, and the language as written; a missing
    start is 0, a missing end is [None], a missing language clause is
    [None]. *)
Theorem thebe_args_directive lead path sep1 cells sep2 language trail a b :
  blank (chars lead) -> word (chars path) ->
  gap (chars sep1) -> gap (chars sep2) -> blank (chars trail) ->
  match cells with
  | Some (s, e) => start_value s = Some a /\ end_value e = Some b
  | None => a = 0 /\ b = None
  end ->
  match language with
  | Some l => Forall (fun c => is_langchar c = true) (chars l)
  | None => True
  end ->
  thebe_args (directive_str lead path sep1 cells sep2 language trail)
  = Return (MkDirective path a b language).
Proof.
  intros Hlead Hpath Hsep1 Hsep2 Htrail Hcells Hlang.
  apply thebe_args_of_groups with (s := fst <$> cells) (e := snd <$> cells).
  - apply search_directive; auto.
    destruct cells as [[s e]|]; [|exact I]. destruct Hcells as [Hs He].
    apply start_value_int in Hs as [Hs _]. apply end_value_int in He as [He _].
    auto.
  - destruct cells as [[s e]|]; cbn [fmap option_fmap option_map fst].
    + apply start_value_int. tauto.
    + destruct Hcells as [-> _]. reflexivity.
  - destruct cells as [[s e]|]; cbn [fmap option_fmap option_map snd].
    + apply end_value_int. tauto.
    + destruct Hcells as [_ ->]. reflexivity.
Qed.

(** The four directives the spec lists, each through the theorem. *)
Lemma thebe_args_directive_examples :
  thebe_args "demo.ipynb" = Return (MkDirective "demo.ipynb" 0 None None)
  /\ thebe_args "demo.ipynb cells[2:5]"
     = Return (MkDirective "demo.ipynb" 2 (Some 5) None)
  /\ thebe_args "demo.ipynb cells[:-1]"
     = Return (MkDirective "demo.ipynb" 0 (Some (-1)) None)
  /\ thebe_args "demo.ipynb language[python]"
     = Return (MkDirective "demo.ipynb" 0 None (Some "python")).
Proof.
  split; [|split; [|split]].
  - apply (thebe_args_directive "" "demo.ipynb" " " None " " None ""); shape.
  - apply (thebe_args_directive "" "demo.ipynb" " " (Some ("2", "5")) " " None "");
      shape.
  - apply (thebe_args_directive "" "demo.ipynb" " " (Some ("", "-1")) " " None "");
      shape.
  - apply (thebe_args_directive "" "demo.ipynb" " " None " " (Some "python") "");
      shape.
Defined.

(** C3, as the code has it: a directive string the pattern does not match
    makes [thebe] raise the [ValueError] whose message ends with the
    expected syntax, and no directive comes out of it. *)
Theorem thebe_args_malformed markup :
  search FORMAT markup = None ->
  thebe_args markup
  = Raise (ValueError ("Error processing input, expected syntax: " +:+ SYNTAX)).
Proof. intros H. unfold thebe_args. rewrite H. reflexivity. Qed.

(** The directive with text after the range clause is such a string. *)
Lemma thebe_args_malformed_example :
  thebe_args "demo.ipynb cells[2:]extra"
  = Raise (ValueError
      "Error processing input, expected syntax: {% thebe /path/to/notebook.ipynb [ cells[start:end] ] [ language[language] ] %}").
Proof.
  apply (thebe_args_malformed "demo.ipynb cells[2:]extra").
  vm_compute. reflexivity.
Defined.

(** C3 does not hold for a range clause standing alone: the pattern takes
    any run of characters without white space as the path. *)
Lemma thebe_args_clause_as_path :
  thebe_args "cells[2:5]" = Return (MkDirective "cells[2:5]" 0 None None).
Proof. vm_compute. reflexivity. Qed.


(** C4, as the code has it: the cells clause comes before the language
    clause. In that order the directive is parsed as written; with the two
    clauses exchanged the pattern does not match and [thebe] raises the
    syntax error. *)
Theorem thebe_args_clause_order path s e l a b :
  word (chars path) ->
  start_value s = Some a -> end_value e = Some b ->
  Forall (fun c => is_langchar c = true) (chars l) ->
  thebe_args (path +:+ " " +:+ cells_clause_str s e
                   +:+ " " +:+ language_clause_str l)
  = Return (MkDirective path a b (Some l))
  /\ thebe_args (path +:+ " " +:+ language_clause_str l
                      +:+ " " +:+ cells_clause_str s e)
     = Raise malformed.
Proof.
  intros Hpath Hs He Hl. split.
  - replace (path +:+ " " +:+ cells_clause_str s e
                   +:+ " " +:+ language_clause_str l)
      with (directive_str "" path " " (Some (s, e)) " " (Some l) "").
    + apply start_value_int in Hs as [Hs Ha]. apply end_value_int in He as [He Hb].
      apply thebe_args_of_groups with (s := Some s) (e := Some e);
        [|exact Ha | exact Hb].
      apply (search_directive "" path " " (Some (s, e)) " " (Some l) "");
        [shape | exact Hpath | shape | shape | shape | auto | exact Hl].
    + apply chars_inj. unfold directive_str.
      rewrite !chars_app. cbn [chars list_ascii_of_string app].
      rewrite <- ?app_assoc, ?app_nil_r. reflexivity.
  - apply parse_no_match. unfold search.
    apply start_value_int in Hs as [Hs _]. apply end_value_int in He as [He _].
    unfold language_clause_str, cells_clause_str.
    rewrite !chars_app.
    pose proof (FORMAT_reversed (chars path) (chars l) (chars s) (chars e)
                  Hpath Hl Hs He) as H.
    unfold language_text, cells_text in H.
    repeat (rewrite <- app_assoc; cbn [app chars list_ascii_of_string]).
    cbn [app chars list_ascii_of_string] in H |- *.
    rewrite <- ?app_assoc in H. cbn [app] in H.
    rewrite H. reflexivity.
Qed.

Lemma thebe_args_clause_order_witness :
  thebe_args "demo.ipynb cells[2:5] language[python]"
  = Return (MkDirective "demo.ipynb" 2 (Some 5) (Some "python"))
  /\ thebe_args "demo.ipynb language[python] cells[2:5]" = Raise malformed.
Proof.
  apply (thebe_args_clause_order "demo.ipynb" "2" "5" "python" 2 (Some 5));
    shape || reflexivity.
Defined.

(** C4 does not hold as stated: the same clauses in the other order are
    refused. *)
Lemma thebe_args_order_matters :
  thebe_args "demo.ipynb cells[2:5] language[python]"
  = Return (MkDirective "demo.ipynb" 2 (Some 5) (Some "python"))
  /\ thebe_args "demo.ipynb language[python] cells[2:5]"
     = Raise (ValueError
         "Error processing input, expected syntax: {% thebe /path/to/notebook.ipynb [ cells[start:end] ] [ language[language] ] %}").
Proof. split; vm_compute; reflexivity. Qed.

(** ** Slicing *)

Lemma adjust_index_range len i :
  0 <= len -> 0 <= adjust_index len i <= len.
Proof. unfold adjust_index. intros. repeat case_match; lia. Qed.

Lemma slice_indices_adjust start stop N :
  0 <= N ->
  slice_indices start stop N = (slice_start N start, slice_stop N stop, 1).
Proof.
  intros HN. unfold slice_indices, slice_start, slice_stop, adjust_index.
  destruct start as [i|], stop as [j|]; repeat f_equal; repeat case_match; lia.
Qed.

Lemma range_len_step1 lo hi :
  range_len (lo, hi, 1) = Z.max 0 (hi - lo).
Proof.
  unfold range_len. cbn. destruct (Z.ltb_spec lo hi).
  - rewrite Z.div_1_r. lia.
  - lia.
Qed.

Section Slice.
Context {A : Type}.
Implicit Types l : list A.

Lemma list_slice_bounds l start stop :
  let N := Z.of_nat (length l) in
  list_slice l start stop
  = firstn (Z.to_nat (slice_stop N stop - slice_start N start))
           (skipn (Z.to_nat (slice_start N start)) l).
Proof.
  intros N. unfold list_slice. fold N.
  destruct (Z.ltb_spec (slice_start N start) (slice_stop N stop)); [reflexivity|].
  replace (Z.to_nat _) with 0%nat by lia. reflexivity.
Qed.

Lemma slice_start_range l start :
  0 <= slice_start (Z.of_nat (length l)) start <= Z.of_nat (length l).
Proof.
  destruct start; simpl; [apply adjust_index_range|]; lia.
Qed.

Lemma slice_stop_range l stop :
  0 <= slice_stop (Z.of_nat (length l)) stop <= Z.of_nat (length l).
Proof.
  destruct stop; simpl; [apply adjust_index_range|]; lia.
Qed.

Lemma list_slice_length l start stop :
  Z.of_nat (length (list_slice l start stop))
  = range_len (slice_indices start stop (Z.of_nat (length l))).
Proof.
  rewrite slice_indices_adjust by lia. rewrite range_len_step1.
  rewrite list_slice_bounds. cbv zeta.
  pose proof (slice_start_range l start). pose proof (slice_stop_range l stop).
  rewrite length_take, length_drop. lia.
Qed.

Lemma list_slice_lookup l start stop (i : nat) :
  (i < length (list_slice l start stop))%nat ->
  list_slice l start stop !! i
  = l !! (Z.to_nat (slice_start (Z.of_nat (length l)) start) + i)%nat.
Proof.
  rewrite list_slice_bounds. cbv zeta. intros Hi.
  rewrite length_take in Hi.
  rewrite lookup_take_lt by lia. apply lookup_drop.
Qed.

Lemma list_slice_nil_iff l start stop :
  list_slice l start stop = []
  <-> slice_stop (Z.of_nat (length l)) stop
      <= slice_start (Z.of_nat (length l)) start.
Proof.
  pose proof (list_slice_length l start stop) as H.
  rewrite slice_indices_adjust, range_len_step1 in H by lia.
  split.
  - intros E. rewrite E in H. simpl in H. lia.
  - intros Hle. apply length_zero_iff_nil. lia.
Qed.

Lemma list_slice_full l : list_slice l (Some 0) None = l.
Proof.
  rewrite list_slice_bounds. cbv zeta.
  assert (slice_start (Z.of_nat (length l)) (Some 0) = 0) as ->.
  { unfold slice_start, adjust_index. repeat case_match; lia. }
  cbn [slice_stop]. rewrite Z.sub_0_r, Nat2Z.id. cbn [Z.to_nat skipn].
  apply firstn_all.
Qed.

(** [l[0:0]] is empty. *)
Lemma list_slice_0_0 l : list_slice l (Some 0) (Some 0) = [].
Proof. apply list_slice_nil_iff. cbn [slice_start slice_stop]. lia. Qed.

(** [l[-2:]] is the last two elements. *)
Lemma list_slice_last2 l :
  list_slice l (Some (-2)) None = skipn (length l - 2) l.
Proof.
  rewrite list_slice_bounds. cbv zeta. cbn [slice_start slice_stop].
  set (N := Z.of_nat (length l)).
  assert (Z.to_nat (adjust_index N (-2)) = (length l - 2)%nat) as ->.
  { unfold adjust_index. repeat case_match; lia. }
  apply firstn_all2. rewrite length_drop.
  unfold adjust_index. repeat case_match; lia.
Qed.

(** Out-of-range indices are clamped. *)
Lemma list_slice_clamp l (i j : Z) :
  let N := Z.of_nat (length l) in
  list_slice l (Some i) (Some j)
  = list_slice l (Some (Z.max (- N) (Z.min i N)))
                 (Some (Z.max (- N) (Z.min j N))).
Proof.
  intros N. rewrite !list_slice_bounds. cbv zeta. fold N.
  cbn [slice_start slice_stop].
  assert (H : forall k, adjust_index N (Z.max (- N) (Z.min k N))
                        = adjust_index N k).
  { intros k. unfold adjust_index. repeat case_match; lia. }
  rewrite !H. reflexivity.
Qed.

(** With both indices on the same side of zero, [start >= end] selects
    nothing. *)
Lemma list_slice_same_sign l (i j : Z) :
  (0 <= i /\ 0 <= j) \/ (i < 0 /\ j < 0) -> j <= i ->
  list_slice l (Some i) (Some j) = [].
Proof.
  intros Hs Hji. apply list_slice_nil_iff. cbn [slice_start slice_stop].
  unfold adjust_index. repeat case_match; lia.
Qed.
End Slice.

(** ** The store under [deepcopy] and [preprocess] *)

Lemma alloc_spec o (h : heap) l h' :
  alloc o h = (l, h') -> h !! l = None /\ h' = <[l := o]> h /\ h ⊆ h'.
Proof.
  unfold alloc. intros [= <- <-].
  assert (h !! fresh (dom h) = None) as Hf.
  { apply not_elem_of_dom. apply is_fresh. }
  split; [exact Hf|]. split; [reflexivity|]. apply insert_subseteq. exact Hf.
Qed.

Lemma read_cell_weaken (h h' : heap) l d :
  h ⊆ h' -> read_cell h l = Some d -> read_cell h' l = Some d.
Proof.
  unfold read_cell. intros Hsub H.
  destruct (h !! l) as [o|] eqn:E; [|discriminate].
  rewrite (lookup_weaken _ _ _ _ E Hsub). exact H.
Qed.

Lemma read_cell_Some (h : heap) l d :
  read_cell h l = Some d <-> h !! l = Some (ODict d).
Proof.
  unfold read_cell. destruct (h !! l) as [[]|]; split; congruence.
Qed.

Lemma lookup_weaken_None' (h h' : heap) l :
  h ⊆ h' -> h' !! l = None -> h !! l = None.
Proof. intros Hsub H. eapply lookup_weaken_None; eauto. Qed.

Lemma deepcopy_items_spec (h0 : heap) items cs :
  Forall2 (fun l d => read_cell h0 l = Some d) items cs ->
  forall memo h,
    h0 ⊆ h -> memo_ok h0 h memo ->
    exists ls memo' h',
      deepcopy_items items memo h = Some (ls, memo', h')
      /\ h ⊆ h' /\ memo_ok h0 h' memo'
      /\ Forall2 (fun l d => read_cell h' l = Some d) ls cs
      /\ Forall (fun l => h0 !! l = None) ls.
Proof.
  induction 1 as [|l d items cs Hl _ IH]; intros memo h Hsub Hmemo.
  - exists [], memo, h. simpl.
    split; [reflexivity|]. split; [reflexivity|]. split; [exact Hmemo|].
    split; constructor.
  - cbn [deepcopy_items]. destruct (memo !! l) as [l'|] eqn:Hm.
    + destruct (Hmemo _ _ Hm) as (Hfresh & d' & Hd' & Hcopy).
      assert (d' = d) as -> by congruence.
      destruct (IH memo h Hsub Hmemo) as (ls & memo' & h' & -> & Hsub' & Hmemo' & Hls & Hnew).
      exists (l' :: ls), memo', h'. split_and!; auto.
      constructor; [|exact Hls]. eapply read_cell_weaken; eauto.
    + pose proof Hl as Hl0. apply read_cell_Some in Hl0.
      rewrite (lookup_weaken _ _ _ _ Hl0 Hsub).
      destruct (alloc (ODict d) h) as [l' h1] eqn:Ha.
      apply alloc_spec in Ha as (Hf & -> & Hsub1).
      assert (Hf0 : h0 !! l' = None) by (eapply lookup_weaken_None'; eauto).
      destruct (IH (<[l := l']> memo) (<[l' := ODict d]> h))
        as (ls & memo' & h' & -> & Hsub' & Hmemo' & Hls & Hnew).
      * etransitivity; eauto.
      * intros x x' Hx. destruct (decide (l = x)) as [->|Hne].
        -- rewrite lookup_insert_eq in Hx. injection Hx as <-.
           split; [exact Hf0|]. exists d. split; [exact Hl|].
           apply read_cell_Some. apply lookup_insert_eq.
        -- rewrite lookup_insert_ne in Hx by exact Hne.
           destruct (Hmemo _ _ Hx) as (Hx0 & dx & Hdx & Hcx).
           split; [exact Hx0|]. exists dx. split; [exact Hdx|].
           eapply read_cell_weaken; eauto.
      * exists (l' :: ls), memo', h'. split_and!; auto.
        -- etransitivity; eauto.
        -- constructor; [|exact Hls]. eapply read_cell_weaken; [exact Hsub'|].
           apply read_cell_Some. apply lookup_insert_eq.
Qed.

Lemma Forall2_list_slice {A B} (P : A -> B -> Prop) l k start stop :
  Forall2 P l k ->
  Forall2 P (list_slice l start stop) (list_slice k start stop).
Proof.
  intros H. unfold list_slice. rewrite <- (Forall2_length _ _ _ H).
  case_match; [|constructor]. apply Forall2_take, Forall2_drop, H.
Qed.

Lemma Forall_list_slice {A} (P : A -> Prop) l start stop :
  Forall P l -> Forall P (list_slice l start stop).
Proof.
  intros H. unfold list_slice. case_match; [|constructor].
  apply Forall_take, Forall_drop, H.
Qed.

Lemma preprocess_spec self nb resources (h : heap) cl rest items cs :
  h !! nb = Some (ONotebook cl rest) ->
  h !! cl = Some (OList items) ->
  Forall2 (fun l d => read_cell h l = Some d) items cs ->
  exists nbc h' cl' items',
    preprocess self nb resources h = Some (nbc, resources, h')
    /\ h ⊆ h'
    /\ h !! nbc = None /\ h !! cl' = None
    /\ Forall (fun l => h !! l = None) items'
    /\ h' !! nbc = Some (ONotebook cl' rest)
    /\ h' !! cl' = Some (OList items')
    /\ Forall2 (fun l d => read_cell h' l = Some d) items'
         (list_slice cs (start self) (end_ self)).
Proof.
  intros Hnb Hcl Hcells.
  destruct (deepcopy_items_spec h items cs Hcells ∅ h)
    as (ls & memo' & h1 & Hcopy & Hsub1 & _ & Hls & Hnew); [reflexivity| |].
  { intros l l' Hl. rewrite lookup_empty in Hl. discriminate. }
  unfold preprocess, deepcopy. rewrite Hnb, Hcl, Hcopy.
  destruct (alloc (OList ls) h1) as [cl1 h2] eqn:Ha1.
  apply alloc_spec in Ha1 as (Hf1 & -> & Hsub2).
  destruct (alloc (ONotebook cl1 rest) (<[cl1 := OList ls]> h1)) as [nbc h3] eqn:Ha2.
  apply alloc_spec in Ha2 as (Hf2 & -> & Hsub3).
  rewrite lookup_insert_eq.
  assert (Hne : nbc <> cl1).
  { intros ->. rewrite lookup_insert_eq in Hf2. discriminate. }
  rewrite lookup_insert_ne by exact Hne. rewrite lookup_insert_eq.
  set (h3 := <[nbc := ONotebook cl1 rest]> (<[cl1 := OList ls]> h1)) in *.
  destruct (alloc (OList (list_slice ls (start self) (end_ self))) h3)
    as [cl2 h4] eqn:Ha3.
  apply alloc_spec in Ha3 as (Hf3 & -> & Hsub4).
  assert (Hsub03 : h ⊆ h3).
  { etransitivity; [exact Hsub1|]. etransitivity; [exact Hsub2 | exact Hsub3]. }
  assert (Hne2 : nbc <> cl2).
  { intros <-. unfold h3 in Hf3. rewrite lookup_insert_eq in Hf3. discriminate. }
  exists nbc,
    (<[nbc := ONotebook cl2 rest]>
       (<[cl2 := OList (list_slice ls (start self) (end_ self))]> h3)), cl2,
    (list_slice ls (start self) (end_ self)).
  assert (Hnbc0 : h !! nbc = None).
  { eapply lookup_weaken_None'; [|exact Hf2].
    etransitivity; [exact Hsub1 | exact Hsub2]. }
  assert (Hcl20 : h !! cl2 = None) by (eapply lookup_weaken_None'; eauto).
  split_and!; auto.
  - (* the store of before is part of the store of after *)
    apply map_subseteq_spec. intros l o Hl.
    rewrite lookup_insert_ne by congruence.
    rewrite lookup_insert_ne by congruence.
    eapply lookup_weaken; eauto.
  - apply Forall_list_slice. exact Hnew.
  - apply lookup_insert_eq.
  - rewrite lookup_insert_ne by exact Hne2. apply lookup_insert_eq.
  - apply Forall2_list_slice.
    eapply Forall2_impl; [exact Hls|]. cbv beta. intros l d Hd.
    apply read_cell_Some in Hd. apply read_cell_Some.
    assert (Hd3 : h3 !! l = Some (ODict d)).
    { eapply lookup_weaken; [exact Hd|].
      etransitivity; [exact Hsub2 | exact Hsub3]. }
    rewrite lookup_insert_ne by (intros <-; unfold h3 in Hd3;
      rewrite lookup_insert_eq in Hd3; discriminate).
    rewrite lookup_insert_ne by congruence. exact Hd3.
Qed.

Lemma nb_cells_Some (h : heap) nb cs :
  nb_cells h nb = Some cs <->
  exists cl rest items,
    h !! nb = Some (ONotebook cl rest) /\ h !! cl = Some (OList items)
    /\ Forall2 (fun l d => read_cell h l = Some d) items cs.
Proof.
  unfold nb_cells, cell_locs. split.
  - destruct (h !! nb) as [[cl rest| |]|] eqn:Hnb; try discriminate.
    destruct (h !! cl) as [[|items|]|] eqn:Hcl; try discriminate.
    intros H. apply mapM_Some in H. eauto 10.
  - intros (cl & rest & items & -> & -> & H). apply mapM_Some. exact H.
Qed.

Lemma nb_cells_weaken (h h' : heap) nb cs :
  h ⊆ h' -> nb_cells h nb = Some cs -> nb_cells h' nb = Some cs.
Proof.
  intros Hsub H. apply nb_cells_Some in H as (cl & rest & items & Hnb & Hcl & Hc).
  apply nb_cells_Some. exists cl, rest, items. split_and!.
  - eapply lookup_weaken; eauto.
  - eapply lookup_weaken; eauto.
  - eapply Forall2_impl; [exact Hc|]. intros l d. apply read_cell_weaken, Hsub.
Qed.

Lemma nb_rest_weaken (h h' : heap) nb rest :
  h ⊆ h' -> nb_rest h nb = Some rest -> nb_rest h' nb = Some rest.
Proof.
  unfold nb_rest. intros Hsub H.
  destruct (h !! nb) as [o|] eqn:E; [|discriminate].
  rewrite (lookup_weaken _ _ _ _ E Hsub). exact H.
Qed.

(** ** The Cell-Range Selector *)

Lemma selects_list_slice {A : Type} self (cs : list A) :
  selects self cs (list_slice cs (start self) (end_ self)).
Proof.
  unfold selects. pose proof (list_slice_length cs (start self) (end_ self)) as Hlen.
  rewrite slice_indices_adjust in * by lia.
  split_and!.
  - exact Hlen.
  - intros i Hi. apply list_slice_lookup, Hi.
  - apply list_slice_nil_iff.
Qed.

(** C2, with its clause on [start >= end] put right: on a notebook with the
    cells [cs], [SubCell.preprocess] returns a document whose cells are
    counted by [len(range( *slice(start, end).indices(N)))] and are the
    cells of [cs] at the indices of that range, in order. Indices out of
    range are clamped to [-N] and [N]. The selection is empty exactly when
    the resolved start is not below the resolved end, which [start >= end]
    gives when both indices lie on the same side of zero. [[0:0]] selects
    nothing and [[-2:]] the last two cells. *)
Theorem preprocess_selects self nb resources (h : heap) cs :
  nb_cells h nb = Some cs ->
  exists nbc h' sel,
    preprocess self nb resources h = Some (nbc, resources, h')
    /\ nb_cells h' nbc = Some sel
    /\ selects self cs sel
    /\ (forall i j, start self = Some i -> end_ self = Some j ->
          let N := Z.of_nat (length cs) in
          sel = list_slice cs (Some (Z.max (- N) (Z.min i N)))
                              (Some (Z.max (- N) (Z.min j N))))
    /\ (forall i j, start self = Some i -> end_ self = Some j ->
          (0 <= i /\ 0 <= j) \/ (i < 0 /\ j < 0) -> j <= i -> sel = [])
    /\ (start self = Some 0 -> end_ self = Some 0 -> sel = [])
    /\ (start self = Some (-2) -> end_ self = None ->
          sel = skipn (length cs - 2) cs).
Proof.
  intros H. apply nb_cells_Some in H as (cl & rest & items & Hnb & Hcl & Hc).
  destruct (preprocess_spec self nb resources h cl rest items cs Hnb Hcl Hc)
    as (nbc & h' & cl' & items' & Hrun & _ & _ & _ & _ & Hnbc & Hcl' & Hsel).
  exists nbc, h', (list_slice cs (start self) (end_ self)). split_and!.
  - exact Hrun.
  - apply nb_cells_Some. eauto 10.
  - apply selects_list_slice.
  - intros i j -> ->. apply list_slice_clamp.
  - intros i j -> ->. apply list_slice_same_sign.
  - intros -> ->. apply list_slice_0_0.
  - intros -> ->. apply list_slice_last2.
Qed.

Lemma preprocess_selects_witness :
  exists nbc h',
    preprocess (MkSubCell (Some (-2)) None) 1%positive 6%positive demo_store
    = Some (nbc, 6%positive, h')
    /\ nb_cells h' nbc = Some [cell_of "b"; cell_of "c"].
Proof.
  destruct (preprocess_selects (MkSubCell (Some (-2)) None) 1%positive
              6%positive demo_store [cell_of "a"; cell_of "b"; cell_of "c"])
    as (nbc & h' & sel & Hrun & Hcells & _ & _ & _ & _ & Hlast).
  - vm_compute. reflexivity.
  - exists nbc, h'. split; [exact Hrun|].
    rewrite Hcells, Hlast; reflexivity.
Defined.

(** C2 does not hold for [start >= end] on the indices as given: with
    start 0 and end -1 a notebook of three cells keeps its first two. *)
Lemma preprocess_start_ge_end :
  exists nbc h',
    preprocess (MkSubCell (Some 0) (Some (-1))) 1%positive 6%positive demo_store
    = Some (nbc, 6%positive, h')
    /\ nb_cells h' nbc = Some [cell_of "a"; cell_of "b"]
    /\ 0 >= -1.
Proof.
  eexists _, _. split; [vm_compute; reflexivity|].
  split; [vm_compute; reflexivity | lia].
Qed.

(** C5: [SubCell.preprocess] leaves every object of the store as it was, so
    the input notebook keeps its cells and their count; the document it
    returns is made of objects the store did not have before, so that
    whatever is later written to any of them, the input notebook still
    reads the same; and what the returned node holds besides [cells] is
    what the input node holds. *)
Theorem preprocess_copies self nb resources (h : heap) cs :
  nb_cells h nb = Some cs ->
  exists nbc h',
    preprocess self nb resources h = Some (nbc, resources, h')
    /\ h ⊆ h'
    /\ nb_cells h' nb = Some cs
    /\ nb_rest h' nb = nb_rest h nb
    /\ Forall (fun l => h !! l = None) (nb_locs h' nbc)
    /\ (forall l o, l ∈ nb_locs h' nbc ->
          nb_cells (<[l := o]> h') nb = Some cs
          /\ nb_rest (<[l := o]> h') nb = nb_rest h nb)
    /\ nb_rest h' nbc = nb_rest h nb.
Proof.
  intros H. pose proof H as Hcs.
  apply nb_cells_Some in H as (cl & rest & items & Hnb & Hcl & Hc).
  destruct (preprocess_spec self nb resources h cl rest items cs Hnb Hcl Hc)
    as (nbc & h' & cl' & items' & Hrun & Hsub & Hn1 & Hn2 & Hn3 & Hnbc & Hcl' & _).
  assert (Hrest : nb_rest h nb = Some rest) by (unfold nb_rest; rewrite Hnb; reflexivity).
  assert (Hnew : Forall (fun l => h !! l = None) (nb_locs h' nbc)).
  { unfold nb_locs. rewrite Hnbc, Hcl'. repeat constructor; assumption. }
  exists nbc, h'. split_and!.
  - exact Hrun.
  - exact Hsub.
  - eapply nb_cells_weaken; eauto.
  - rewrite Hrest. eapply nb_rest_weaken; eauto.
  - exact Hnew.
  - intros l o Hl.
    assert (Hsub' : h ⊆ <[l := o]> h').
    { apply insert_subseteq_r; [|exact Hsub].
      rewrite Forall_forall in Hnew. apply Hnew. exact Hl. }
    split.
    + eapply nb_cells_weaken; eauto.
    + rewrite Hrest. eapply nb_rest_weaken; eauto.
  - rewrite Hrest. unfold nb_rest. rewrite Hnbc. reflexivity.
Qed.

Lemma preprocess_copies_witness :
  exists nbc h',
    preprocess (MkSubCell (Some 1) None) 1%positive 6%positive demo_store
    = Some (nbc, 6%positive, h')
    /\ nb_cells h' 1%positive = Some [cell_of "a"; cell_of "b"; cell_of "c"]
    /\ forall o, nb_cells (<[nbc := o]> h') 1%positive
                 = Some [cell_of "a"; cell_of "b"; cell_of "c"].
Proof.
  destruct (preprocess_copies (MkSubCell (Some 1) None) 1%positive
              6%positive demo_store [cell_of "a"; cell_of "b"; cell_of "c"])
    as (nbc & h' & Hrun & _ & Hcells & _ & _ & Hmut & _).
  - vm_compute. reflexivity.
  - exists nbc, h'. split; [exact Hrun|]. split; [exact Hcells|].
    intros o. apply Hmut. unfold nb_locs.
    destruct (h' !! nbc) as [[]|]; constructor.
Defined.

(** C10: [SubCell.preprocess] returns the [resources] it was given, and the
    object behind it is as before: no key added, removed or changed. *)
Theorem preprocess_resources self nb resources (h : heap) cs o :
  nb_cells h nb = Some cs ->
  h !! resources = Some o ->
  exists nbc h',
    preprocess self nb resources h = Some (nbc, resources, h')
    /\ h' !! resources = Some o.
Proof.
  intros H Hres.
  apply nb_cells_Some in H as (cl & rest & items & Hnb & Hcl & Hc).
  destruct (preprocess_spec self nb resources h cl rest items cs Hnb Hcl Hc)
    as (nbc & h' & cl' & items' & Hrun & Hsub & _).
  exists nbc, h'. split; [exact Hrun|]. eapply lookup_weaken; eauto.
Qed.

Lemma preprocess_resources_witness :
  exists nbc h',
    preprocess SubCell_default 1%positive 6%positive demo_store
    = Some (nbc, 6%positive, h')
    /\ h' !! 6%positive = Some (ODict ∅).
Proof.
  apply (preprocess_resources SubCell_default 1%positive 6%positive demo_store
           [cell_of "a"; cell_of "b"; cell_of "c"] (ODict ∅));
    vm_compute; reflexivity.
Defined.

(** ** The round trip of the full range *)

(** C6: writing the full range [cells[:]] changes nothing. The directive
    parses to the same arguments as the path alone (start 0, end [None]);
    [thebe] therefore does the same with either, whatever its collaborators
    and the state of the world; and selecting with start 0 and end [None]
    returns a document with all the cells of the input, in order. *)
Theorem full_range_round_trip path :
  word (chars path) ->
  thebe_args (path +:+ " cells[:]") = Return (MkDirective path 0 None None)
  /\ thebe_args path = Return (MkDirective path 0 None None)
  /\ (forall getConfig os_path_exists hl from_notebook_file placeholder w,
        thebe getConfig os_path_exists hl from_notebook_file placeholder
              (path +:+ " cells[:]") w
        = thebe getConfig os_path_exists hl from_notebook_file placeholder
                path w)
  /\ (forall nb resources (h : heap) cs,
        nb_cells h nb = Some cs ->
        exists nbc h',
          preprocess (SubCell_of (Config_of (MkDirective path 0 None None)))
                     nb resources h
          = Some (nbc, resources, h')
          /\ nb_cells h' nbc = Some cs).
Proof.
  intros Hpath.
  assert (H1 : thebe_args (path +:+ " cells[:]")
               = Return (MkDirective path 0 None None)).
  { replace (path +:+ " cells[:]")
      with (directive_str "" path " " (Some ("", "")) " " None "").
    - apply thebe_args_of_groups with (s := Some "") (e := Some "");
        [|reflexivity | reflexivity].
      apply (search_directive "" path " " (Some ("", "")) " " None "");
        [shape | exact Hpath | shape | shape | shape | split; exact I | exact I].
    - apply chars_inj. unfold directive_str, cells_clause_str.
      rewrite !chars_app. cbn [chars list_ascii_of_string app].
      rewrite ?app_nil_r. reflexivity. }
  assert (H2 : thebe_args path = Return (MkDirective path 0 None None)).
  { replace path with (directive_str "" path " " None " " None "") at 1.
    - apply thebe_args_of_groups with (s := None) (e := None);
        [|reflexivity | reflexivity].
      apply (search_directive "" path " " None " " None "");
        [shape | exact Hpath | shape | shape | shape | exact I | exact I].
    - apply chars_inj. unfold directive_str.
      rewrite !chars_app. cbn [chars list_ascii_of_string app].
      rewrite ?app_nil_r. reflexivity. }
  split_and!.
  - exact H1.
  - exact H2.
  - intros. unfold thebe, bind, lift. rewrite H1, H2. reflexivity.
  - intros nb resources h cs H.
    apply nb_cells_Some in H as (cl & rest & items & Hnb & Hcl & Hc).
    destruct (preprocess_spec
                (SubCell_of (Config_of (MkDirective path 0 None None)))
                nb resources h cl rest items cs Hnb Hcl Hc)
      as (nbc & h' & cl' & items' & Hrun & _ & _ & _ & _ & Hnbc & Hcl' & Hsel).
    exists nbc, h'. split; [exact Hrun|].
    apply nb_cells_Some. cbn in Hsel.
    rewrite list_slice_full in Hsel. eauto 10.
Qed.

Lemma full_range_round_trip_witness :
  thebe_args "demo.ipynb cells[:]" = thebe_args "demo.ipynb".
Proof.
  destruct (full_range_round_trip "demo.ipynb") as (H1 & H2 & _).
  - shape.
  - change ("demo.ipynb" +:+ " cells[:]") with "demo.ipynb cells[:]" in H1.
    rewrite H1, H2. reflexivity.
Defined.

(** ** The renderer's path test *)

Lemma ends_with_slash_app a b :
  b <> "" -> ends_with_slash (a +:+ b) = ends_with_slash b.
Proof.
  intros Hb. induction a as [|c a IH]; [reflexivity|].
  change (String c a +:+ b) with (String c (a +:+ b)).
  destruct (a +:+ b) as [|d t] eqn:E.
  - destruct a; simpl in E; [contradiction | discriminate].
  - exact IH.
Qed.

(** For a plain subdirectory and a relative source path the resolved path
    is [content/<NOTEBOOK_DIR>/<src>]. *)
Lemma os_path_join_relative nb_dir src :
  nb_dir <> "" -> starts_with_slash nb_dir = false ->
  ends_with_slash nb_dir = false -> starts_with_slash src = false ->
  os_path_join "content" [nb_dir; src] = "content/" +:+ nb_dir +:+ "/" +:+ src.
Proof.
  intros Hne Habs Hend Hsrc. unfold os_path_join. cbn [fold_left].
  rewrite Habs, Hsrc. cbn [String.eqb orb ends_with_slash Ascii.eqb Bool.eqb].
  replace ("content" +:+ "/" +:+ nb_dir) with ("content/" +:+ nb_dir) by reflexivity.
  rewrite ends_with_slash_app by exact Hne. rewrite Hend.
  cbn. reflexivity.
Qed.

(** C7: when the file that [os.path.join('content', NOTEBOOK_DIR, src)]
    names does not exist, [thebe] raises the [ValueError] that names this
    path, and leaves the world as it found it: nothing is handed to the
    exporter and nothing is stored in the stash. *)
Theorem thebe_not_found getConfig os_path_exists hl from_notebook_file
    placeholder markup d w :
  thebe_args markup = Return d ->
  os_path_exists (os_path_join "content" [getConfig "NOTEBOOK_DIR"; d_src d])
  = false ->
  thebe getConfig os_path_exists hl from_notebook_file placeholder markup w
  = (Raise (ValueError
       ("File " +:+ os_path_join "content" [getConfig "NOTEBOOK_DIR"; d_src d]
                +:+ " could not be found")),
     w).
Proof.
  intros Hd Hex. unfold thebe, bind, lift. rewrite Hd. cbv zeta.
  rewrite Hex. reflexivity.
Qed.

Lemma thebe_not_found_witness :
  thebe (fun _ => "notebooks") (fun _ => false) wrapping_highlighter
        (fun _ _ => Return "<body>") (fun _ => "token")
        "demo.ipynb cells[2:5]" (MkWorld [] [])
  = (Raise (ValueError "File content/notebooks/demo.ipynb could not be found"),
     MkWorld [] []).
Proof.
  apply (thebe_not_found (fun _ => "notebooks") (fun _ => false)
           wrapping_highlighter (fun _ _ => Return "<body>") (fun _ => "token")
           "demo.ipynb cells[2:5]" (MkDirective "demo.ipynb" 2 (Some 5) None));
    vm_compute; reflexivity.
Defined.

(** ** The highlighter *)

(** What [custom_highlighter] hands to the highlighter. *)
Lemma custom_highlighter_call hl source language metadata :
  custom_highlighter hl source language metadata
  = hl source (MkHtmlFormatter "highlight-ipynb") (lexer_of language).
Proof.
  unfold custom_highlighter, lexer_of, truthy.
  destruct language as [l|]; [|reflexivity].
  destruct (String.eqb l ""); reflexivity.
Qed.

(** C8, as the code has it: [custom_highlighter] does not recover from a
    failure of the highlighter it calls. What [_pygments_highlight] raises
    on a cell's source comes out of [custom_highlighter] unchanged; no
    plain-text rendering is put in its place. *)
Theorem custom_highlighter_propagates hl source language metadata e :
  hl source (MkHtmlFormatter "highlight-ipynb") (lexer_of language) = Raise e ->
  custom_highlighter hl source language metadata = Raise e.
Proof. intros H. rewrite custom_highlighter_call. exact H. Qed.

Lemma custom_highlighter_propagates_witness :
  custom_highlighter failing_highlighter "x = 1" (Some "nosuchlang") None
  = Raise (Exception "ClassNotFound" "no lexer for alias nosuchlang found").
Proof.
  apply (custom_highlighter_propagates failing_highlighter "x = 1"
           (Some "nosuchlang") None).
  reflexivity.
Defined.

(** C8 does not hold as stated: with a highlighter that fails, the call for
    a cell's source fails too, and no HTML comes back. *)
Lemma custom_highlighter_no_fallback :
  custom_highlighter failing_highlighter "x = 1" (Some "nosuchlang") None
  = Raise (Exception "ClassNotFound" "no lexer for alias nosuchlang found")
  /\ forall html,
       custom_highlighter failing_highlighter "x = 1" (Some "nosuchlang") None
       <> Return html.
Proof. split; [reflexivity | discriminate]. Qed.

(** C9: [custom_highlighter] returns what the highlighter makes of the
    source with a formatter of class [highlight-ipynb], a class other than
    [highlight], so whatever mark the highlighter's output bears of its
    formatter's class, the result bears of [highlight-ipynb]; and the lexer
    it asks for is the language tag, or [ipython] when the tag is unset or
    the empty string. *)
Theorem custom_highlighter_class hl (marks : string -> string -> Prop)
    source language metadata :
  (forall src f lang out, hl src f lang = Return out -> marks (cssclass f) out) ->
  (forall html, custom_highlighter hl source language metadata = Return html ->
     marks "highlight-ipynb" html)
  /\ "highlight-ipynb" <> "highlight"
  /\ custom_highlighter hl source None metadata
     = hl source (MkHtmlFormatter "highlight-ipynb") "ipython"
  /\ custom_highlighter hl source (Some "") metadata
     = hl source (MkHtmlFormatter "highlight-ipynb") "ipython"
  /\ (language <> None -> language <> Some "" ->
      custom_highlighter hl source language metadata
      = hl source (MkHtmlFormatter "highlight-ipynb") (default "" language)).
Proof.
  intros Hmarks. split_and!; try reflexivity; try discriminate.
  - intros html H. rewrite custom_highlighter_call in H.
    apply Hmarks in H. exact H.
  - intros Hn He. rewrite custom_highlighter_call. f_equal.
    destruct language as [l|]; [|congruence]. cbn.
    destruct (String.eqb_spec l "") as [->|]; congruence.
Qed.

Lemma custom_highlighter_class_witness :
  exists src,
    custom_highlighter wrapping_highlighter "x = 1" None None
    = Return ("<div class=highlight-ipynb><pre>" +:+ src +:+ "</pre></div>").
Proof.
  destruct (custom_highlighter_class wrapping_highlighter
              (fun c out => exists src,
                 out = "<div class=" +:+ c +:+ "><pre>" +:+ src +:+ "</pre></div>")
              "x = 1" None None) as (H & _).
  - intros src f lang out [= <-]. exists src. reflexivity.
  - destruct (H _ eq_refl) as [src Hsrc]. exists src.
    exact (f_equal Return Hsrc).
Defined.

(** * Further properties of the code *)

(** ** The strings the pattern matches

    The matcher tries every way of splitting the subject, so a text that
    the pattern can match in some way is matched. *)

Lemma rep_max_complete p k g w s' pos :
  Forall (fun c => p c = true) w ->
  always k s' (pos + length w)%nat ->
  exists res, rep_max p k g (w ++ s') pos = Some res.
Proof.
  intros Hw. revert pos. induction Hw as [|c w Hc _ IH]; intros pos Hk.
  - simpl in *. rewrite Nat.add_0_r in Hk.
    destruct s' as [|c r]; simpl; [apply Hk|].
    destruct (p c); [|apply Hk].
    destruct (rep_max p k g r (S pos)); [eauto | apply Hk].
  - simpl. rewrite Hc. destruct (IH (S pos)) as [res ->]; [|eauto].
    simpl in Hk. rewrite <- Nat.add_succ_comm in Hk. exact Hk.
Qed.

Lemma m_complete r : forall w s' pos g k,
  den r pos w s' ->
  always k s' (pos + length w)%nat ->
  exists res, m r (w ++ s') pos g k = Some res.
Proof.
  induction r as [| | |c|p|p|p|r1 IH1|r1 IH1 r2 IH2|name r1 IH1];
    intros w s' pos g k Hd Hk; cbn [den] in Hd; cbn [m].
  - subst w. simpl in *. rewrite Nat.add_0_r in Hk. apply Hk.
  - destruct Hd as [-> ->]. simpl in *. apply Hk.
  - destruct Hd as [-> Hs]. simpl in *. rewrite Nat.add_0_r in Hk.
    destruct Hs as [->| ->]; [apply Hk|].
    rewrite Ascii.eqb_refl. apply Hk.
  - subst w. simpl. rewrite Ascii.eqb_refl. rewrite Nat.add_1_r in Hk. apply Hk.
  - destruct Hd as (c & -> & Hc). simpl. rewrite Hc.
    rewrite Nat.add_1_r in Hk. apply Hk.
  - apply rep_max_complete; assumption.
  - destruct Hd as [Hne Hw]. destruct w as [|c w]; [congruence|].
    inversion Hw as [|? ? Hc Hw']; subst. simpl. rewrite Hc.
    apply rep_max_complete; [exact Hw'|].
    simpl in Hk. rewrite <- Nat.add_succ_comm in Hk. exact Hk.
  - destruct Hd as [->|Hd].
    + simpl in *. rewrite Nat.add_0_r in Hk.
      destruct (m r1 s' pos g k); [eauto | apply Hk].
    + destruct (IH1 w s' pos g k Hd Hk) as [res ->]. eauto.
  - destruct Hd as (w1 & w2 & -> & Hd1 & Hd2). rewrite <- app_assoc.
    apply IH1; [exact Hd1|].
    intros g'. apply IH2; [exact Hd2|].
    rewrite length_app, Nat.add_assoc in Hk. exact Hk.
  - apply IH1; [exact Hd|]. intros g'. apply Hk.
Qed.

Lemma den_ws_opt_intro pos w s' : blank w -> den ws_opt pos w s'.
Proof.
  intros Hw. unfold ws_opt. cbn [den].
  destruct w as [|c w]; [left; reflexivity|right].
  split; [discriminate | exact Hw].
Qed.

Lemma den_signed_intro p pos w s' :
  signed p w -> den (Cat (Opt (Lit "-")) (Star p)) pos w s'.
Proof.
  intros Hw. cbn [den]. destruct w as [|c ds].
  - exists [], []. auto.
  - simpl in Hw. destruct (Ascii.eqb_spec c "-") as [->|Hc].
    + exists ["-"%char], ds. auto.
    + exists [], (c :: ds). auto.
Qed.

Lemma den_lits_intro str pos s' : den (lits str) pos (chars str) s'.
Proof.
  unfold lits, seq. revert pos.
  induction (chars str) as [|c t IH]; intros pos; cbn [map fold_right den].
  - reflexivity.
  - exists [c], t. split; [reflexivity|]. split; [reflexivity|]. apply IH.
Qed.

Lemma den_cells_intro pos C s' : cells_shape C -> den (Opt cells_clause) pos C s'.
Proof.
  intros [->|(a & b & -> & Ha & Hb)]; cbn [den]; [left; reflexivity|right].
  unfold cells_clause, seq, cells_text. cbn [den fold_right].
  exists (chars "cells["), (a ++ [":"%char] ++ b ++ ["]"%char]).
  split; [reflexivity|]. split; [apply den_lits_intro|].
  exists a, ([":"%char] ++ b ++ ["]"%char]).
  split; [reflexivity|]. split; [apply (den_signed_intro is_digit 0 a []), Ha|].
  exists [":"%char], (b ++ ["]"%char]).
  split; [reflexivity|]. split; [reflexivity|].
  exists b, ["]"%char].
  split; [reflexivity|]. split; [apply (den_signed_intro is_digit 0 b []), Hb|].
  exists ["]"%char], []. auto.
Qed.

Lemma den_language_intro pos L s' :
  language_shape L -> den (Opt language_clause) pos L s'.
Proof.
  intros [->|(l & -> & Hl)]; cbn [den]; [left; reflexivity|right].
  unfold language_clause, seq, language_text. cbn [den fold_right].
  exists (chars "language["), (l ++ ["]"%char]).
  split; [reflexivity|]. split; [apply den_lits_intro|].
  exists l, ["]"%char].
  split; [reflexivity|].
  split; [apply (den_signed_intro is_langchar 0 l []), signed_langchar, Hl|].
  exists ["]"%char], []. auto.
Qed.

Lemma FORMAT_complete t :
  directive_shape t -> exists res, search_from FORMAT t 0 = Some res.
Proof.
  intros (ws0 & src & ws1 & C & ws2 & L & ws3 & -> & H0 & Hsrc & H1 & HC & H2 & HL & H3).
  assert (Hd : den FORMAT 0
                 (ws0 ++ src ++ ws1 ++ C ++ ws2 ++ L ++ ws3) []).
  { unfold FORMAT, seq. cbn [fold_right].
    change (den (Cat Bol ?r) 0 ?w ?s) with (den (Cat Bol r) 0 ([] ++ w) s).
    cbn [den].
    exists [], (ws0 ++ src ++ ws1 ++ C ++ ws2 ++ L ++ ws3).
    split; [reflexivity|]. split; [auto|].
    exists ws0, (src ++ ws1 ++ C ++ ws2 ++ L ++ ws3).
    split; [reflexivity|]. split; [apply den_ws_opt_intro, H0|].
    exists src, (ws1 ++ C ++ ws2 ++ L ++ ws3).
    split; [reflexivity|]. split; [exact Hsrc|].
    exists ws1, (C ++ ws2 ++ L ++ ws3).
    split; [reflexivity|]. split; [apply den_ws_opt_intro, H1|].
    exists C, (ws2 ++ L ++ ws3).
    split; [reflexivity|]. split; [apply (den_cells_intro 0 C []), HC|].
    exists ws2, (L ++ ws3).
    split; [reflexivity|]. split; [apply den_ws_opt_intro, H2|].
    exists L, ws3.
    split; [reflexivity|]. split; [apply (den_language_intro 0 L []), HL|].
    exists ws3, [].
    split; [symmetry; apply app_nil_r|]. split; [apply den_ws_opt_intro, H3|].
    exists [], []. auto. }
  destruct (m_complete FORMAT _ [] 0 no_caps accept Hd) as [res Hres].
  { intros g'. unfold accept. eauto. }
  rewrite app_nil_r in Hres. exists res. apply search_from_here. exact Hres.
Qed.

Lemma FORMAT_shape t res :
  search_from FORMAT t 0 = Some res -> directive_shape t.
Proof.
  intros H. apply FORMAT_sound in H
    as (ws0 & src & ws1 & C & ws2 & L & ws3 & tl & -> & H0 & Hsrc & H1 & HC & H2 & HL & H3 & Htl).
  exists ws0, src, ws1, C, ws2, L, (ws3 ++ tl). split_and!; auto.
  - apply blank_app; [exact H3 | apply blank_tail, Htl].
Qed.

(** X1: [FORMAT] matches a directive exactly when it is, from its first
    character to its last, optional white space, a path without white
    space, and then, each optional and each after optional white space, a
    cells clause and a language clause in this order, and trailing white
    space; and [thebe] raises its syntax error for exactly the other
    strings. *)
Theorem thebe_args_grammar markup :
  (is_Some (search FORMAT markup) <-> directive_shape (chars markup))
  /\ (thebe_args markup = Raise malformed <-> ~ directive_shape (chars markup)).
Proof.
  assert (H : is_Some (search FORMAT markup) <-> directive_shape (chars markup)).
  { unfold search. split.
    - intros [gd Hgd].
      destruct (search_from FORMAT (chars markup) 0) as [g|] eqn:Hg;
        [|discriminate].
      eapply FORMAT_shape, Hg.
    - intros Hs. apply FORMAT_complete in Hs as [res ->]. simpl. eauto. }
  split; [exact H|]. split.
  - intros Hr Hs. apply thebe_args_malformed_only in Hr.
    apply H in Hs as [gd Hgd]. congruence.
  - intros Hn. apply parse_no_match.
    destruct (search FORMAT markup) as [gd|] eqn:Hgd; [|reflexivity].
    exfalso. apply Hn, H. eauto.
Qed.

(** ** What the groups hold

    The soundness of the matcher, with the groups followed along. *)

Lemma caps_sat_set P name w g :
  (forall n, name = Some n -> P n w) ->
  caps_sat P g -> caps_sat P (set_group name w g).
Proof.
  intros Hw Hg n t H. destruct name as [n0|]; [|exact (Hg _ _ H)].
  specialize (Hw n0 eq_refl).
  destruct n0, n; simpl in H;
    first [ injection H as <-; exact Hw
          | match goal with |- P ?n _ => exact (Hg n t H) end ].
Qed.

Lemma m_sound_caps P r : groups_ok P r -> forall s pos g k res,
  caps_sat P g ->
  m r s pos g k = Some res ->
  exists w s' g', s = w ++ s' /\ den r pos w s' /\ caps_sat P g'
                  /\ k s' (pos + length w)%nat g' = Some res.
Proof.
  induction r as [| | |c|p|p|p|r1 IH1|r1 IH1 r2 IH2|name r1 IH1];
    intros Hok s pos g k res Hg H; cbn [m] in H.
  - exists [], s, g. rewrite Nat.add_0_r. simpl. auto 10.
  - destruct (Nat.eqb_spec pos 0); [|discriminate].
    exists [], s, g. rewrite Nat.add_0_r. simpl. auto 10.
  - destruct s as [|c [|c' s]]; [| |discriminate].
    + exists [], [], g. rewrite Nat.add_0_r. simpl. auto 10.
    + destruct (Ascii.eqb_spec c newline) as [->|]; [|discriminate].
      exists [], [newline], g. rewrite Nat.add_0_r. simpl. auto 10.
  - destruct s as [|x s]; [discriminate|].
    destruct (Ascii.eqb_spec x c) as [->|]; [|discriminate].
    exists [c], s, g. rewrite Nat.add_1_r. simpl. auto 10.
  - destruct s as [|x s]; [discriminate|].
    destruct (p x) eqn:Hx; [|discriminate].
    exists [x], s, g. rewrite Nat.add_1_r. simpl. eauto 10.
  - apply rep_max_sound in H as (w & s' & -> & Hw & Hk).
    exists w, s', g. simpl. auto 10.
  - destruct s as [|x s]; [discriminate|].
    destruct (p x) eqn:Hx; [|discriminate].
    apply rep_max_sound in H as (w & s' & -> & Hw & Hk).
    exists (x :: w), s', g. simpl. rewrite <- Nat.add_succ_comm.
    split_and!; auto; discriminate.
  - destruct (m r1 s pos g k) as [x|] eqn:Hm.
    + injection H as ->.
      apply IH1 in Hm as (w & s' & g' & -> & Hd & Hg' & Hk); auto.
      exists w, s', g'. simpl. auto 10.
    + exists [], s, g. rewrite Nat.add_0_r. simpl. auto 10.
  - destruct Hok as [Hok1 Hok2].
    apply IH1 in H as (w1 & s1 & g1 & -> & Hd1 & Hg1 & H); auto.
    apply IH2 in H as (w2 & s2 & g2 & -> & Hd2 & Hg2 & H); auto.
    exists (w1 ++ w2), s2, g2. rewrite length_app, Nat.add_assoc, <- app_assoc.
    split_and!; auto. simpl. eauto 10.
  - assert (Hok1 : groups_ok P r1) by (destruct name; simpl in Hok; tauto).
    apply IH1 in H as (w & s' & g' & -> & Hd & Hg' & Hk); auto.
    rewrite firstn_exact in Hk by lia.
    exists w, s', (set_group name w g'). split_and!; auto.
    apply caps_sat_set; [|exact Hg'].
    intros n ->. simpl in Hok. destruct Hok as [Hw _]. eapply Hw, Hd.
Qed.

Lemma FORMAT_groups_ok : groups_ok group_text FORMAT.
Proof.
  unfold FORMAT, cells_clause, language_clause, ws_opt, lits, seq.
  cbn -[den]. split_and!; try exact I;
    try (intros pos w s' H;
         first [ exact H
               | exact (den_signed is_digit pos w s' H)
               | exact (signed_langchar_all _ (den_signed is_langchar pos w s' H)) ]).
Qed.

Lemma no_caps_sat P : caps_sat P no_caps.
Proof. intros [] t; discriminate. Qed.

Lemma search_groups markup argdict :
  search FORMAT markup = Some argdict ->
  exists g, argdict = to_groupdict g /\ caps_sat group_text g.
Proof.
  unfold search. destruct (search_from FORMAT (chars markup) 0) as [g|] eqn:H;
    [|discriminate].
  intros [= <-]. exists g. split; [reflexivity|].
  apply search_FORMAT_anchored in H.
  apply (m_sound_caps group_text FORMAT FORMAT_groups_ok) in H
    as (w & s' & g' & _ & _ & Hg & Hk); [|apply no_caps_sat].
  unfold accept in Hk. injection Hk as <-. exact Hg.
Qed.

Lemma chars_str t : chars (str t) = t.
Proof. apply list_ascii_of_string_of_list_ascii. Qed.

Lemma digits_value_total t acc :
  Forall (fun c => is_digit c = true) t -> exists v, digits_value t acc = Some v.
Proof.
  intros H. revert acc. induction H as [|c t Hc _ IH]; intros acc; simpl.
  - eauto.
  - rewrite Hc. apply IH.
Qed.

(** [int] on what a range group can hold: only the lone sign is refused. *)
Lemma int_signed t :
  signed is_digit t -> t <> [] -> t <> ["-"%char] ->
  exists v, int (str t) = Return v.
Proof.
  intros Hs Hne Hsign. unfold int. rewrite chars_str.
  destruct t as [|c ds]; [congruence|]. simpl in Hs.
  destruct (Ascii.eqb_spec c "-") as [->|Hc].
  - destruct ds as [|d ds]; [congruence|].
    destruct (digits_value_total (d :: ds) 0 Hs) as [v ->]. eauto.
  - destruct (digits_value_total (c :: ds) 0 Hs) as [v ->]. eauto.
Qed.

Lemma int_group_error t e :
  signed is_digit t -> t <> [] -> int (str t) = Raise e ->
  t = ["-"%char] /\ e = lone_sign.
Proof.
  intros Hs Hne H.
  destruct (decide (t = ["-"%char])) as [->|Hn].
  - split; [reflexivity|]. vm_compute in H. injection H as <-. reflexivity.
  - destruct (int_signed t Hs Hne Hn) as [v Hv]. congruence.
Qed.

Lemma truthy_str t : truthy (Some (str t)) = true -> t <> [].
Proof. intros H ->. discriminate. Qed.

(** X2: whatever [thebe] raises while it reads its arguments is either its
    own syntax error or the [ValueError] of [int] on a range index that is a
    sign without digits; no other range text that the pattern lets through
    makes [int] fail. *)
Theorem thebe_args_errors markup e :
  thebe_args markup = Raise e -> e = malformed \/ e = lone_sign.
Proof.
  unfold thebe_args. destruct (search FORMAT markup) as [argdict|] eqn:Hm;
    [|intros [= <-]; auto].
  destruct (search_groups _ _ Hm) as (g & -> & Hg).
  destruct (search_src _ _ Hm) as [src Hsrc]. rewrite Hsrc.
  unfold start_arg, end_arg. cbn [to_groupdict gd_start gd_end].
  assert (Hrange : forall o,
            (forall t, o = Some t -> signed is_digit t) ->
            forall e', truthy (option_map str o) = true ->
                       int (default "" (option_map str o)) = Raise e' ->
                       e' = lone_sign).
  { intros [t|] Ho e' Ht Hi; [|discriminate]. simpl in *.
    eapply int_group_error; eauto. apply truthy_str, Ht. }
  destruct (truthy (option_map str (c_start g))) eqn:Ts.
  - destruct (int (default "" (option_map str (c_start g)))) as [e1|v] eqn:Hi.
    + intros [= <-]. right. eapply (Hrange (c_start g)); eauto.
      intros t Ht. apply (Hg Gstart t Ht).
    + destruct (truthy (option_map str (c_end g))) eqn:Te; [|discriminate].
      destruct (int (default "" (option_map str (c_end g)))) as [e1|v'] eqn:Hj;
        [|discriminate].
      intros [= <-]. right. eapply (Hrange (c_end g)); eauto.
      intros t Ht. apply (Hg Gend t Ht).
  - destruct (truthy (option_map str (c_end g))) eqn:Te; [|discriminate].
    destruct (int (default "" (option_map str (c_end g)))) as [e1|v'] eqn:Hj;
      [|discriminate].
    intros [= <-]. right. eapply (Hrange (c_end g)); eauto.
    intros t Ht. apply (Hg Gend t Ht).
Qed.

(** X3: in every directive that [thebe] parses, the source path is not
    empty and holds no white space, and the language, when there is one,
    is made of lower-case letters, digits, [+] and [-] only. *)
Theorem thebe_args_invariant markup d :
  thebe_args markup = Return d ->
  word (chars (d_src d))
  /\ forall l, d_language d = Some l ->
               Forall (fun c => is_langchar c = true) (chars l).
Proof.
  unfold thebe_args. destruct (search FORMAT markup) as [argdict|] eqn:Hm;
    [|discriminate].
  destruct (search_groups _ _ Hm) as (g & -> & Hg).
  cbn [to_groupdict gd_src gd_start gd_end gd_language].
  destruct (c_src g) as [t|] eqn:Hsrc; [|discriminate]. cbn [option_map].
  destruct (start_arg _); [discriminate|]. destruct (end_arg _); [discriminate|].
  intros [= <-]. cbn [d_src d_language]. split.
  - rewrite chars_str. apply (Hg Gsrc t Hsrc).
  - intros l Hl. destruct (c_language g) as [tl|] eqn:Hlang; [|discriminate].
    injection Hl as <-. rewrite chars_str. apply (Hg Glanguage tl Hlang).
Qed.

Lemma thebe_args_errors_witness :
  ValueError "invalid literal for int() with base 10: '-'" = malformed
  \/ ValueError "invalid literal for int() with base 10: '-'" = lone_sign.
Proof.
  apply (thebe_args_errors "demo.ipynb cells[-:]"). vm_compute. reflexivity.
Defined.

Lemma thebe_args_invariant_witness :
  word (chars "demo.ipynb")
  /\ forall l, Some "python" = Some l ->
               Forall (fun c => is_langchar c = true) (chars l).
Proof.
  apply (thebe_args_invariant "  demo.ipynb language[python]"
           (MkDirective "demo.ipynb" 0 None (Some "python"))).
  vm_compute. reflexivity.
Defined.

(** ** Edges of the directive syntax *)

(** X4: a range whose start is a sign without digits, or whose start is a
    number or empty and whose end is a sign without digits, matches the
    pattern and then makes [thebe] raise the [ValueError] of [int], which
    does not carry the expected syntax. *)
Theorem thebe_args_sign_alone path s e a :
  word (chars path) ->
  (s = "-"%string /\ signed is_digit (chars e))
  \/ (start_value s = Some a /\ e = "-"%string) ->
  thebe_args (path +:+ " " +:+ cells_clause_str s e) = Raise lone_sign.
Proof.
  intros Hpath Hcase.
  assert (Hm : search FORMAT (path +:+ " " +:+ cells_clause_str s e)
               = Some (GroupDict (Some path) (Some s) (Some e) None)).
  { replace (path +:+ " " +:+ cells_clause_str s e)
      with (directive_str "" path " " (Some (s, e)) " " None "").
    - apply (search_directive "" path " " (Some (s, e)) " " None "");
        [shape | exact Hpath | shape | shape | shape | | exact I].
      destruct Hcase as [[-> He]|[Hs ->]].
      + split; [simpl; constructor | exact He].
      + apply start_value_int in Hs. split; [tauto | simpl; constructor].
    - apply chars_inj. unfold directive_str.
      rewrite !chars_app. cbn [chars list_ascii_of_string app].
      rewrite ?app_nil_r. reflexivity. }
  unfold thebe_args. rewrite Hm. cbn [gd_src gd_start gd_end gd_language].
  destruct Hcase as [[-> He]|[Hs ->]].
  - reflexivity.
  - apply start_value_int in Hs as [_ ->]. reflexivity.
Qed.

Lemma thebe_args_sign_alone_witness :
  thebe_args "demo.ipynb cells[-:3]" = Raise lone_sign
  /\ thebe_args "demo.ipynb cells[2:-]" = Raise lone_sign.
Proof.
  split.
  - apply (thebe_args_sign_alone "demo.ipynb" "-" "3" 0); [shape|].
    left. split; [reflexivity | repeat constructor].
  - apply (thebe_args_sign_alone "demo.ipynb" "2" "-" 2); [shape|].
    right. split; reflexivity.
Defined.

(** The two clauses with any white space between them, or none. *)
Lemma FORMAT_match_glued lead path sep1 sep2 trail s e l :
  blank lead -> word path -> gap sep1 -> blank sep2 -> blank trail ->
  signed is_digit s -> signed is_digit e ->
  Forall (fun c => is_langchar c = true) l ->
  search_from FORMAT
    (lead ++ path ++ sep1 ++ cells_text s e ++ sep2 ++ language_text l ++ trail) 0
  = Some (Caps (Some path) (Some s) (Some e) (Some l)).
Proof.
  intros Hlead Hpath [Hne1 Hsep1] Hsep2 Htrail Hs He Hl.
  apply search_from_here.
  unfold FORMAT, seq. cbn [fold_right].
  next. rewrite m_bol. next.
  apply m_ws_opt; [exact Hlead | apply word_stops_space; exact Hpath |].
  destruct Hpath as [Hpne Hpath]. next.
  apply m_src; [exact Hpne | exact Hpath | apply blank_stops_nonspace; assumption |].
  next. apply m_ws_opt; [exact Hsep1 | reflexivity |].
  next. apply m_cells_clause; [exact Hs | exact He |].
  next. apply m_ws_opt; [exact Hsep2 | reflexivity |].
  next. apply m_language_clause; [exact Hl |].
  next. rewrite <- (app_nil_r trail).
  apply m_ws_opt; [exact Htrail | exact I |].
  reflexivity.
Qed.

(** X5: the language clause may follow the cells clause directly: without
    white space between the two, [thebe] extracts the same arguments as
    with it. *)
Theorem thebe_args_glued path s e l a b :
  word (chars path) ->
  start_value s = Some a -> end_value e = Some b ->
  Forall (fun c => is_langchar c = true) (chars l) ->
  thebe_args (path +:+ " " +:+ cells_clause_str s e +:+ language_clause_str l)
  = Return (MkDirective path a b (Some l)).
Proof.
  intros Hpath Hs He Hl.
  apply start_value_int in Hs as [Hs Ha]. apply end_value_int in He as [He Hb].
  apply thebe_args_of_groups with (s := Some s) (e := Some e); [|exact Ha|exact Hb].
  assert (E : chars (path +:+ " " +:+ cells_clause_str s e +:+ language_clause_str l)
              = [] ++ chars path ++ [" "%char] ++ cells_text (chars s) (chars e)
                ++ [] ++ language_text (chars l) ++ []).
  { unfold cells_clause_str, language_clause_str, cells_text, language_text.
    rewrite !chars_app. cbn [app chars list_ascii_of_string].
    repeat (rewrite <- app_assoc; cbn [app]). rewrite ?app_nil_r. reflexivity. }
  unfold search. rewrite E.
  rewrite FORMAT_match_glued;
    [ | constructor | exact Hpath | split; [discriminate | repeat constructor]
      | constructor | constructor | exact Hs | exact He | exact Hl ].
  unfold to_groupdict. cbn. rewrite !str_chars. reflexivity.
Qed.

Lemma thebe_args_glued_witness :
  thebe_args "demo.ipynb cells[2:5]language[python]"
  = Return (MkDirective "demo.ipynb" 2 (Some 5) (Some "python")).
Proof.
  apply (thebe_args_glued "demo.ipynb" "2" "5" "python" 2 (Some 5));
    shape || reflexivity.
Defined.

(** ** Laws of the selection *)

Lemma list_slice_partition {A} (l : list A) (k : Z) :
  list_slice l (Some 0) (Some k) ++ list_slice l (Some k) None = l.
Proof.
  rewrite !list_slice_bounds. cbv zeta. cbn [slice_start slice_stop].
  pose proof (adjust_index_range (Z.of_nat (length l)) k ltac:(lia)) as Hk.
  assert (adjust_index (Z.of_nat (length l)) 0 = 0) as ->.
  { unfold adjust_index. repeat case_match; lia. }
  rewrite Z.sub_0_r. cbn [Z.to_nat skipn].
  rewrite (firstn_all2 (skipn (Z.to_nat (adjust_index _ k)) l))
    by (rewrite length_drop; lia).
  apply firstn_skipn.
Qed.

Lemma list_slice_segment {A} (l : list A) start stop :
  exists pre post, l = pre ++ list_slice l start stop ++ post.
Proof.
  rewrite list_slice_bounds. cbv zeta.
  set (N := Z.of_nat (length l)).
  exists (firstn (Z.to_nat (slice_start N start)) l),
    (skipn (Z.to_nat (slice_stop N stop - slice_start N start))
       (skipn (Z.to_nat (slice_start N start)) l)).
  rewrite firstn_skipn, firstn_skipn. reflexivity.
Qed.

(** X6: for every index [k], negative or out of range as it may be, the
    cells selected with [[0:k]] followed by the cells selected with [[k:]]
    are the cells of the notebook; the second selection runs in the store
    the first one left, and the first result is still as it was. *)
Theorem preprocess_partition k nb resources (h : heap) cs :
  nb_cells h nb = Some cs ->
  exists nbc1 h1 nbc2 h2 sel1 sel2,
    preprocess (MkSubCell (Some 0) (Some k)) nb resources h
    = Some (nbc1, resources, h1)
    /\ preprocess (MkSubCell (Some k) None) nb resources h1
       = Some (nbc2, resources, h2)
    /\ nb_cells h2 nbc1 = Some sel1
    /\ nb_cells h2 nbc2 = Some sel2
    /\ sel1 ++ sel2 = cs.
Proof.
  intros H. pose proof H as Hcs.
  apply nb_cells_Some in H as (cl & rest & items & Hnb & Hcl & Hc).
  destruct (preprocess_spec (MkSubCell (Some 0) (Some k)) nb resources h
              cl rest items cs Hnb Hcl Hc)
    as (nbc1 & h1 & cl1 & items1 & Hrun1 & Hsub1 & _ & _ & _ & Hn1 & Hl1 & Hsel1).
  assert (Hc1 : Forall2 (fun l d => read_cell h1 l = Some d) items cs).
  { eapply Forall2_impl; [exact Hc|]. intros l d. apply read_cell_weaken, Hsub1. }
  destruct (preprocess_spec (MkSubCell (Some k) None) nb resources h1
              cl rest items cs)
    as (nbc2 & h2 & cl2 & items2 & Hrun2 & Hsub2 & _ & _ & _ & Hn2 & Hl2 & Hsel2);
    [eapply lookup_weaken; eauto | eapply lookup_weaken; eauto | exact Hc1 |].
  exists nbc1, h1, nbc2, h2. eexists _, _. split_and!.
  - exact Hrun1.
  - exact Hrun2.
  - eapply nb_cells_weaken; [exact Hsub2|]. apply nb_cells_Some. eauto 10.
  - apply nb_cells_Some. eauto 10.
  - apply list_slice_partition.
Qed.

Lemma preprocess_partition_witness :
  exists nbc1 h1 nbc2 h2,
    preprocess (MkSubCell (Some 0) (Some (-1))) 1%positive 6%positive demo_store
    = Some (nbc1, 6%positive, h1)
    /\ preprocess (MkSubCell (Some (-1)) None) 1%positive 6%positive h1
       = Some (nbc2, 6%positive, h2)
    /\ exists sel1 sel2,
         nb_cells h2 nbc1 = Some sel1 /\ nb_cells h2 nbc2 = Some sel2
         /\ sel1 ++ sel2 = [cell_of "a"; cell_of "b"; cell_of "c"].
Proof.
  destruct (preprocess_partition (-1) 1%positive 6%positive demo_store
              [cell_of "a"; cell_of "b"; cell_of "c"])
    as (nbc1 & h1 & nbc2 & h2 & sel1 & sel2 & H1 & H2 & H3 & H4 & H5).
  - vm_compute. reflexivity.
  - exists nbc1, h1, nbc2, h2. eauto 10.
Defined.

(** X7: the cells [SubCell.preprocess] returns are one unbroken run of the
    notebook's cells: nothing is reordered, repeated or skipped within the
    selection. *)
Theorem preprocess_segment self nb resources (h : heap) cs :
  nb_cells h nb = Some cs ->
  exists nbc h' sel pre post,
    preprocess self nb resources h = Some (nbc, resources, h')
    /\ nb_cells h' nbc = Some sel
    /\ cs = pre ++ sel ++ post.
Proof.
  intros H. apply nb_cells_Some in H as (cl & rest & items & Hnb & Hcl & Hc).
  destruct (preprocess_spec self nb resources h cl rest items cs Hnb Hcl Hc)
    as (nbc & h' & cl' & items' & Hrun & _ & _ & _ & _ & Hnbc & Hcl' & Hsel).
  destruct (list_slice_segment cs (start self) (end_ self)) as (pre & post & E).
  exists nbc, h', (list_slice cs (start self) (end_ self)), pre, post.
  split_and!; [exact Hrun | apply nb_cells_Some; eauto 10 | exact E].
Qed.

Lemma preprocess_segment_witness :
  exists nbc h' sel pre post,
    preprocess (MkSubCell (Some 1) (Some 2)) 1%positive 6%positive demo_store
    = Some (nbc, 6%positive, h')
    /\ nb_cells h' nbc = Some sel
    /\ [cell_of "a"; cell_of "b"; cell_of "c"] = pre ++ sel ++ post.
Proof.
  apply (preprocess_segment (MkSubCell (Some 1) (Some 2)) 1%positive
           6%positive demo_store [cell_of "a"; cell_of "b"; cell_of "c"]).
  vm_compute. reflexivity.
Defined.

(** ** What a run of [thebe] does *)

Section ThebeRuns.

Variable getConfig : string -> string.
Variable os_path_exists : string -> bool.
Variable hl : string -> HtmlFormatter -> string -> result string.
Variable from_notebook_file : HTMLExporter -> string -> result string.
Variable placeholder : nat -> string.

Let run := thebe getConfig os_path_exists hl from_notebook_file placeholder.
Let nb_path (d : Directive) : string :=
  os_path_join "content" [getConfig "NOTEBOOK_DIR"; d_src d].

(** X8: for a parsed directive whose notebook file exists, [thebe] runs
    the exporter once, on the resolved path, with [SubCell] set to the
    parsed range, the highlight class [.highlight-ipynb], the fixed
    template, and a highlight filter that is the highlighter at the
    directive's language ([ipython] when the language is unset or empty);
    the body that comes back is stored in the stash as it is, flagged safe,
    and the placeholder of that block is returned; an exception of the
    exporter is passed on and stores nothing. *)
Theorem thebe_exporter markup d w :
  thebe_args markup = Return d ->
  os_path_exists (nb_path d) = true ->
  exists exporter,
    run markup w
    = match from_notebook_file exporter (nb_path d) with
      | Return body =>
          (Return (placeholder (length (stash w))),
           MkWorld (rendered w ++ [nb_path d]) (stash w ++ [(body, true)]))
      | Raise e => (Raise e, MkWorld (rendered w ++ [nb_path d]) (stash w))
      end
    /\ SubCell_of (config exporter) = MkSubCell (Some (d_start d)) (d_end d)
    /\ CSSHTMLHeaderTransformer_highlight_class (config exporter) = ".highlight-ipynb"
    /\ (forall source metadata,
          highlight2html exporter source metadata
          = hl source (MkHtmlFormatter "highlight-ipynb")
               (lexer_of (d_language d)))
    /\ template_file exporter = "liquid_tags/thebehtml_3.tplx"
    /\ template_path exporter = getConfig "PLUGIN_PATHS".
Proof.
  intros Hd Hex.
  exists (MkHTMLExporter (Config_of d)
            (fun source metadata =>
               custom_highlighter hl source (d_language d) metadata)
            "liquid_tags/thebehtml_3.tplx" (getConfig "PLUGIN_PATHS")).
  split.
  - unfold run, thebe, bind, lift. rewrite Hd. cbv zeta.
    fold (nb_path d). rewrite Hex. cbn [negb].
    unfold export, htmlStash_store.
    destruct (from_notebook_file _ (nb_path d)); reflexivity.
  - cbn. split_and!; try reflexivity.
    intros. apply custom_highlighter_call.
Qed.

(** X9: on every run, [thebe] stores one block in the stash when it
    returns and none when it raises, and never touches the blocks stored
    before; the exporter is run at most once, and only on a path the file
    system test accepted. *)
Theorem thebe_effects markup w :
  match run markup w with
  | (Return token, w') =>
      exists d exporter body,
        thebe_args markup = Return d
        /\ os_path_exists (nb_path d) = true
        /\ config exporter = Config_of d
        /\ from_notebook_file exporter (nb_path d) = Return body
        /\ token = placeholder (length (stash w))
        /\ stash w' = stash w ++ [(body, true)]
        /\ rendered w' = rendered w ++ [nb_path d]
  | (Raise e, w') =>
      stash w' = stash w
      /\ (rendered w' = rendered w
          \/ exists d, thebe_args markup = Return d
                       /\ os_path_exists (nb_path d) = true
                       /\ rendered w' = rendered w ++ [nb_path d])
  end.
Proof.
  unfold run, thebe, bind, lift.
  destruct (thebe_args markup) as [e|d] eqn:Hd; [auto|].
  cbv zeta. fold (nb_path d).
  destruct (os_path_exists (nb_path d)) eqn:Hex; cbn [negb]; [|cbn; auto].
  unfold export, htmlStash_store.
  match goal with
  | |- context [from_notebook_file ?x (nb_path d)] =>
      destruct (from_notebook_file x (nb_path d)) as [e|body] eqn:Hb
  end.
  - cbn. split; [reflexivity|]. right. exists d. auto.
  - cbn. eexists d, _, body. split_and!; try reflexivity; try exact Hb; auto.
Qed.

(** X10: a source path that begins with a slash is used as it is: the
    content directory and [NOTEBOOK_DIR] drop out of the resolved path, so
    that the file tested, and named when it is missing, is the path of the
    directive itself. *)
Theorem thebe_absolute_path markup d w :
  thebe_args markup = Return d ->
  starts_with_slash (d_src d) = true ->
  nb_path d = d_src d
  /\ (os_path_exists (d_src d) = false ->
      run markup w
      = (Raise (ValueError ("File " +:+ d_src d +:+ " could not be found")), w)).
Proof.
  intros Hd Habs.
  assert (E : nb_path d = d_src d).
  { unfold nb_path, os_path_join. cbn [fold_left]. rewrite Habs. reflexivity. }
  split; [exact E|]. intros Hex.
  unfold run, thebe, bind, lift. rewrite Hd. cbv zeta.
  fold (nb_path d). rewrite E, Hex. reflexivity.
Qed.

(** X11: with a subdirectory that is not empty, is not absolute and does
    not end in a slash, and a source path that is not absolute, the
    resolved path is [content/<NOTEBOOK_DIR>/<src>]: this is the file
    tested, and named when it is missing. *)
Theorem thebe_relative_path markup d w :
  thebe_args markup = Return d ->
  getConfig "NOTEBOOK_DIR" <> "" ->
  starts_with_slash (getConfig "NOTEBOOK_DIR") = false ->
  ends_with_slash (getConfig "NOTEBOOK_DIR") = false ->
  starts_with_slash (d_src d) = false ->
  nb_path d = "content/" +:+ getConfig "NOTEBOOK_DIR" +:+ "/" +:+ d_src d
  /\ (os_path_exists (nb_path d) = false ->
      run markup w
      = (Raise (ValueError
           ("File "
            +:+ ("content/" +:+ getConfig "NOTEBOOK_DIR" +:+ "/" +:+ d_src d)
            +:+ " could not be found")), w)).
Proof.
  intros Hd Hne Habs Hend Hsrc.
  assert (E : nb_path d
              = "content/" +:+ getConfig "NOTEBOOK_DIR" +:+ "/" +:+ d_src d).
  { apply os_path_join_relative; assumption. }
  split; [exact E|]. intros Hex.
  unfold run, thebe, bind, lift. rewrite Hd. cbv zeta.
  fold (nb_path d). rewrite Hex. cbn [negb]. rewrite E. reflexivity.
Qed.

End ThebeRuns.

Lemma thebe_exporter_witness :
  thebe (fun _ => "notebooks") (fun _ => true) wrapping_highlighter
        (fun exporter _ => highlight2html exporter "x = 1" None)
        (fun _ => "token") "demo.ipynb language[python]" (MkWorld [] [])
  = (Return "token",
     MkWorld ["content/notebooks/demo.ipynb"]
             [("<div class=highlight-ipynb><pre>x = 1</pre></div>", true)]).
Proof.
  destruct (thebe_exporter (fun _ => "notebooks") (fun _ => true)
              wrapping_highlighter
              (fun exporter _ => highlight2html exporter "x = 1" None)
              (fun _ => "token") "demo.ipynb language[python]"
              (MkDirective "demo.ipynb" 0 None (Some "python")) (MkWorld [] []))
    as (exporter & Hrun & _ & _ & Hfilter & _).
  - vm_compute. reflexivity.
  - reflexivity.
  - rewrite Hrun, Hfilter. reflexivity.
Defined.

Lemma thebe_absolute_path_witness :
  thebe (fun _ => "notebooks") (fun _ => false) wrapping_highlighter
        (fun _ _ => Return "<body>") (fun _ => "token")
        "/srv/private.ipynb" (MkWorld [] [])
  = (Raise (ValueError "File /srv/private.ipynb could not be found"),
     MkWorld [] []).
Proof.
  destruct (thebe_absolute_path (fun _ => "notebooks") (fun _ => false)
              wrapping_highlighter (fun _ _ => Return "<body>")
              (fun _ => "token") "/srv/private.ipynb"
              (MkDirective "/srv/private.ipynb" 0 None None) (MkWorld [] []))
    as (_ & Hrun).
  - vm_compute. reflexivity.
  - reflexivity.
  - apply Hrun. reflexivity.
Defined.


Lemma thebe_relative_path_witness :
  thebe (fun _ => "notebooks") (fun _ => false) wrapping_highlighter
        (fun _ _ => Return "<body>") (fun _ => "token")
        "demo.ipynb cells[:3]" (MkWorld [] [])
  = (Raise (ValueError "File content/notebooks/demo.ipynb could not be found"),
     MkWorld [] []).
Proof.
  destruct (thebe_relative_path (fun _ => "notebooks") (fun _ => false)
              wrapping_highlighter (fun _ _ => Return "<body>")
              (fun _ => "token") "demo.ipynb cells[:3]"
              (MkDirective "demo.ipynb" 0 (Some 3) None) (MkWorld [] []))
    as (_ & Hrun).
  - vm_compute. reflexivity.
  - discriminate.
  - reflexivity.
  - reflexivity.
  - reflexivity.
  - apply Hrun. reflexivity.
Defined.

(** ** [SliceIndex] and the version test *)





(** ** From the directive to the cells *)

Lemma list_slice_plain {A} (l : list A) (a b : Z) :
  0 <= a <= b -> b <= Z.of_nat (length l) ->
  list_slice l (Some a) (Some b)
  = firstn (Z.to_nat (b - a)) (skipn (Z.to_nat a) l).
Proof.
  intros Hab Hb. rewrite list_slice_bounds. cbv zeta.
  cbn [slice_start slice_stop]. unfold adjust_index.
  repeat case_match; try lia; try reflexivity.
  - assert (a = b) as -> by lia. rewrite !Z.sub_diag. reflexivity.
  - assert (b = Z.of_nat (length l)) as -> by lia. reflexivity.
Qed.

(** X14: the range written in a directive is the Python slice of the
    notebook's cells: for [<path> cells[<s>:<e>]], the [SubCell] that
    [thebe] configures returns the cells [cs[a:b]], where [a] is the number
    [<s>] denotes, 0 when it is empty, and [b] the number [<e>] denotes,
    [None] when it is empty; for [0 <= a <= b <= N] these are the [b - a]
    cells from index [a] on. *)
Theorem directive_selects path s e a b nb resources (h : heap) cs :
  word (chars path) ->
  start_value s = Some a -> end_value e = Some b ->
  nb_cells h nb = Some cs ->
  exists d nbc h',
    thebe_args (path +:+ " " +:+ cells_clause_str s e) = Return d
    /\ preprocess (SubCell_of (Config_of d)) nb resources h
       = Some (nbc, resources, h')
    /\ nb_cells h' nbc = Some (list_slice cs (Some a) b)
    /\ (forall b', b = Some b' -> 0 <= a <= b' -> b' <= Z.of_nat (length cs) ->
          list_slice cs (Some a) b
          = firstn (Z.to_nat (b' - a)) (skipn (Z.to_nat a) cs)).
Proof.
  intros Hpath Hs He H.
  assert (Hd : thebe_args (path +:+ " " +:+ cells_clause_str s e)
               = Return (MkDirective path a b None)).
  { apply start_value_int in Hs as [Hs Ha]. apply end_value_int in He as [He Hb].
    apply thebe_args_of_groups with (s := Some s) (e := Some e);
      [|exact Ha | exact Hb].
    replace (path +:+ " " +:+ cells_clause_str s e)
      with (directive_str "" path " " (Some (s, e)) " " None "").
    - apply (search_directive "" path " " (Some (s, e)) " " None "");
        [shape | exact Hpath | shape | shape | shape | auto | exact I].
    - apply chars_inj. unfold directive_str.
      rewrite !chars_app. cbn [chars list_ascii_of_string app].
      rewrite ?app_nil_r. reflexivity. }
  apply nb_cells_Some in H as (cl & rest & items & Hnb & Hcl & Hc).
  destruct (preprocess_spec (SubCell_of (Config_of (MkDirective path a b None)))
              nb resources h cl rest items cs Hnb Hcl Hc)
    as (nbc & h' & cl' & items' & Hrun & _ & _ & _ & _ & Hnbc & Hcl' & Hsel).
  exists (MkDirective path a b None), nbc, h'. split_and!.
  - exact Hd.
  - exact Hrun.
  - apply nb_cells_Some. cbn in Hsel. eauto 10.
  - intros b' -> Ha Hb. apply list_slice_plain; assumption.
Qed.

Lemma directive_selects_witness :
  exists d nbc h',
    thebe_args "demo.ipynb cells[1:3]" = Return d
    /\ preprocess (SubCell_of (Config_of d)) 1%positive 6%positive demo_store
       = Some (nbc, 6%positive, h')
    /\ nb_cells h' nbc = Some [cell_of "b"; cell_of "c"].
Proof.
  destruct (directive_selects "demo.ipynb" "1" "3" 1 (Some 3) 1%positive
              6%positive demo_store [cell_of "a"; cell_of "b"; cell_of "c"])
    as (d & nbc & h' & Hd & Hrun & Hcells & _).
  - shape.
  - reflexivity.
  - reflexivity.
  - vm_compute. reflexivity.
  - exists d, nbc, h'. split; [exact Hd|]. split; [exact Hrun|].
    rewrite Hcells. reflexivity.
Defined.

